(** * lemmego: database provisioning and session lifecycle

    A shallow embedding of [DBExists], [CreateDB], [CreateSession] and
    [ConnectDB] (package [framework]) and of the part of the upper/db
    driver they call.  The driver and the database server are the
    environment: every call into them is recorded in a trace, and their
    replies are an arbitrary function of the trace so far. *)

From Stdlib Require Import String Ascii List Bool Arith ZArith Lia.
Import ListNotations.
Open Scope string_scope.
Open Scope list_scope.

(** ** Data model *)

(** [type DBConfig struct] *)
Record DBConfig := {
  Host     : string;
  Port     : Z;
  User     : string;
  Password : string;
  Database : string
}.

(** The fields of [postgresql.ConnectionURL] / [mysql.ConnectionURL] the
    code sets; a field that is not set keeps Go's zero value, the empty
    string. *)
Record ConnectionURL := {
  cuHost     : string;
  cuUser     : string;
  cuPassword : string;
  cuDatabase : string
}.

(** Which adapter package's [Open] is called. *)
Inductive Adapter := Postgresql | Mysql.

(** A non-nil [db.Session] is a handle to a live connection. *)
Definition Session := nat.

(** Go [error] values that occur in the package. *)
Inductive error :=
| ErrUnknownDialect                        (* errors.New("unknown dialect") *)
| ErrNoSuchDatabase                        (* errors.New("no such database exists") *)
| DriverError (msg : string)               (* an error made by upper/db or the server *)
| Errorf (msg : string) (cause : error).   (* fmt.Errorf(msg + ": %w", cause) *)

(** What [QueryRow] hands back when it does not fail: [row.Scan(&database)]
    stores [v] for [Some v]; for [None] (no row, or a scan failure) it
    returns an error and leaves [database] as it was. *)
Definition Row := option string.

(** The [sql.Result] of [Exec]; the code only tests it against nil. *)
Inductive Result := NilResult | SomeResult.

(** One call into the driver (or the logger). *)
Inductive event :=
| EvOpen (a : Adapter) (settings : ConnectionURL) (s : Session)
| EvOpenFail (a : Adapter) (settings : ConnectionURL) (msg : string)
| EvQueryRow (s : Session) (sql : string)
| EvExec (s : Session) (sql : string)
| EvLog (s : Session)          (* log.Println("closing session ", sess.Name()) *)
| EvClose (s : Session).

Definition Trace := list event.

(** The environment: how the driver answers, given everything that has
    happened so far. *)
Record Driver := {
  open_reply  : Trace -> Adapter -> ConnectionURL -> option string;
  query_reply : Trace -> Session -> string -> string + Row;
  exec_reply  : Trace -> Session -> string -> string + Result
}.

(** ** Observations on traces *)

Definition opened_of (e : event) : list Session :=
  match e with EvOpen _ _ s => [s] | _ => [] end.

Definition closed_of (e : event) : list Session :=
  match e with EvClose s => [s] | _ => [] end.

Definition exec_of (e : event) : list string :=
  match e with EvExec _ sql => [sql] | _ => [] end.

Definition open_attempt_of (e : event) : list ConnectionURL :=
  match e with
  | EvOpen _ settings _ => [settings]
  | EvOpenFail _ settings _ => [settings]
  | _ => []
  end.

Definition queried_of (e : event) : list Session :=
  match e with EvQueryRow s _ => [s] | _ => [] end.

Definition opened (tr : Trace) : list Session := flat_map opened_of tr.
(** The sessions on which a query was run, in order. *)
Definition queried_on (tr : Trace) : list Session := flat_map queried_of tr.
Definition closed (tr : Trace) : list Session := flat_map closed_of tr.
Definition exec_stmts (tr : Trace) : list string := flat_map exec_of tr.
Definition open_attempts (tr : Trace) : list ConnectionURL :=
  flat_map open_attempt_of tr.

(** How many times [s] was closed. *)
Definition close_count (s : Session) (tr : Trace) : nat :=
  count_occ Nat.eq_dec (closed tr) s.

(** The sessions that were opened and not closed since. *)
Definition live (tr : Trace) : list Session :=
  filter (fun s => Nat.eqb (close_count s tr) 0) (opened tr).

(** The settings a session was opened with. *)
Fixpoint settings_of (s : Session) (tr : Trace) : option ConnectionURL :=
  match tr with
  | [] => None
  | EvOpen _ settings s' :: tr' =>
      if Nat.eqb s' s then Some settings else settings_of s tr'
  | _ :: tr' => settings_of s tr'
  end.


(** A handle no open in the trace has used. *)
Definition fresh (tr : Trace) : Session := list_max (map S (opened tr)).

(** ** Calls in sequence *)

Definition M (A : Type) : Type := Trace -> A * Trace.

Definition ret {A} (a : A) : M A := fun tr => (a, tr).

Definition bind {A B} (m : M A) (k : A -> M B) : M B :=
  fun tr => let (a, tr') := m tr in k a tr'.

Definition emit (e : event) : M unit := fun tr => (tt, tr ++ [e]).

Notation "x <- m ;; k" := (bind m (fun x => k))
  (at level 61, m at next level, right associativity).
Notation "m ;;; k" := (bind m (fun _ => k))
  (at level 61, right associativity).

(** Go's [(T, error)] where the code returns [(nil, err)] or [(v, nil)]. *)
Inductive result (A : Type) :=
| Ok (a : A)
| Err (e : error).
Arguments Ok {A} a.
Arguments Err {A} e.

(** ** The driver calls *)

Section Framework.

Variable drv : Driver.

(** [postgresql.Open(settings)] / [mysql.Open(settings)]: a session and a
    nil error, or a nil session and an error. *)
Definition driver_Open (a : Adapter) (settings : ConnectionURL)
  : M (result Session) :=
  fun tr =>
    match open_reply drv tr a settings with
    | Some msg => (Err (DriverError msg), tr ++ [EvOpenFail a settings msg])
    | None => let s := fresh tr in (Ok s, tr ++ [EvOpen a settings s])
    end.

(** [sess.SQL().QueryRow(sql)] *)
Definition QueryRow (sess : Session) (sql : string) : M (result Row) :=
  fun tr =>
    (match query_reply drv tr sess sql with
     | inl msg => Err (DriverError msg)
     | inr row => Ok row
     end, tr ++ [EvQueryRow sess sql]).

(** [sess.SQL().Exec(sql)] *)
Definition Exec (sess : Session) (sql : string) : M (result Result) :=
  fun tr =>
    (match exec_reply drv tr sess sql with
     | inl msg => Err (DriverError msg)
     | inr res => Ok res
     end, tr ++ [EvExec sess sql]).

(** [sess.Close()]; its error is dropped by every caller. *)
Definition Close (sess : Session) : M unit := emit (EvClose sess).

(** [row.Scan(&database)] on [var database string]: the scan error is
    dropped, so no row leaves the zero value. *)
Definition Scan (row : Row) : string :=
  match row with Some v => v | None => "" end.

(** The deferred function of [DBExists] and [CreateDB]:
    [if sess != nil { log.Println(...); sess.Close() }]. *)
Definition deferred_close (sess : option Session) : M unit :=
  match sess with
  | Some s => emit (EvLog s) ;;; Close s
  | None => ret tt
  end.

(** ** DBExists *)

Definition postgres_exists_sql (name : string) : string :=
  ("SELECT datname FROM pg_catalog.pg_database WHERE lower(datname) = lower('"
     ++ name ++ "')")%string.

Definition mysql_exists_sql (name : string) : string :=
  ("SELECT SCHEMA_NAME FROM INFORMATION_SCHEMA.SCHEMATA WHERE SCHEMA_NAME = '"
     ++ name ++ "'")%string.

(** The settings both [DBExists] branches build: no database. *)
Definition server_settings (dbConfig : DBConfig) : ConnectionURL :=
  {| cuHost := Host dbConfig; cuUser := User dbConfig;
     cuPassword := Password dbConfig; cuDatabase := "" |}.

(** One dialect branch of [DBExists]; the second component is the local
    [sess] at the return, which the deferred function inspects. *)
Definition DBExists_branch (a : Adapter) (sql : string) (dbConfig : DBConfig)
  : M ((bool * option error) * option Session) :=
  r <- driver_Open a (server_settings dbConfig) ;;
  match r with
  | Err err => ret ((false, Some (Errorf "failed to connect" err)), None)
  | Ok sess =>
      q <- QueryRow sess sql ;;
      match q with
      | Err err =>
          ret ((false, Some (Errorf "failed to check db existence" err)),
               Some sess)
      | Ok row =>
          let database := Scan row in
          if negb (database =? Database dbConfig)
          then ret ((false, Some ErrNoSuchDatabase), Some sess)
          else ret ((true, None), Some sess)
      end
  end.

Definition DBExists_body (dialect : string) (dbConfig : DBConfig)
  : M ((bool * option error) * option Session) :=
  if dialect =? "postgres" then
    DBExists_branch Postgresql (postgres_exists_sql (Database dbConfig))
      dbConfig
  else if dialect =? "mysql" then
    DBExists_branch Mysql (mysql_exists_sql (Database dbConfig)) dbConfig
  else ret ((false, Some ErrUnknownDialect), None).

Definition DBExists (dialect : string) (dbConfig : DBConfig)
  : M (bool * option error) :=
  out <- DBExists_body dialect dbConfig ;;
  deferred_close (snd out) ;;;
  ret (fst out).

(** ** CreateSession *)

(** The settings of a [CreateSession] branch:
    [if !ignoreDb { settings.Database = dbConfig.Database }]. *)
Definition session_settings (dbConfig : DBConfig) (ignoreDb : bool)
  : ConnectionURL :=
  let settings := server_settings dbConfig in
  if negb ignoreDb
  then {| cuHost := cuHost settings; cuUser := cuUser settings;
          cuPassword := cuPassword settings;
          cuDatabase := Database dbConfig |}
  else settings.

Definition CreateSession_branch (a : Adapter) (dbConfig : DBConfig)
  (ignoreDb : bool) : M (result Session) :=
  r <- driver_Open a (session_settings dbConfig ignoreDb) ;;
  match r with
  | Err err => ret (Err (Errorf "failed to connect" err))
  | Ok sess => ret (Ok sess)
  end.

Definition CreateSession (dialect : string) (dbConfig : DBConfig)
  (ignoreDb : bool) : M (result Session) :=
  if dialect =? "postgres" then CreateSession_branch Postgresql dbConfig ignoreDb
  else if dialect =? "mysql" then CreateSession_branch Mysql dbConfig ignoreDb
  else ret (Err ErrUnknownDialect).

(** ** CreateDB *)

Definition postgres_create_sql (dbConfig : DBConfig) : string :=
  ("CREATE DATABASE " ++ Database dbConfig ++ " WITH OWNER "
     ++ User dbConfig)%string.

Definition mysql_create_sql (dbConfig : DBConfig) : string :=
  ("CREATE DATABASE IF NOT EXISTS " ++ Database dbConfig)%string.

(** One [if dialect == ...] block of [CreateDB]: [Some r] when the block
    returns [r], [None] when control falls out of it. *)
Definition CreateDB_block (sess : Session) (sql : string)
  : M (option (option error)) :=
  x <- Exec sess sql ;;
  match x with
  | Err err => ret (Some (Some err))
  | Ok res =>
      match res with
      | SomeResult => ret (Some None)
      | NilResult => ret None
      end
  end.

Definition CreateDB_body (dialect : string) (dbConfig : DBConfig)
  : M (option error * option Session) :=
  r <- CreateSession dialect dbConfig true ;;
  match r with
  | Err err => ret (Some err, None)
  | Ok sess =>
      b1 <- (if dialect =? "postgres"
             then CreateDB_block sess (postgres_create_sql dbConfig)
             else ret None) ;;
      match b1 with
      | Some r1 => ret (r1, Some sess)
      | None =>
          b2 <- (if dialect =? "mysql"
                 then CreateDB_block sess (mysql_create_sql dbConfig)
                 else ret None) ;;
          match b2 with
          | Some r2 => ret (r2, Some sess)
          | None => ret (None, Some sess)
          end
      end
  end.

Definition CreateDB (dialect : string) (dbConfig : DBConfig)
  : M (option error) :=
  out <- CreateDB_body dialect dbConfig ;;
  deferred_close (snd out) ;;;
  ret (fst out).

(** ** ConnectDB *)

Definition ConnectDB (dialect : string) (dbConfig : DBConfig)
  : M (result Session) :=
  r <- CreateSession dialect dbConfig true ;;
  match r with
  | Err err => ret (Err err)
  | Ok sess =>
      probe <- DBExists dialect dbConfig ;;
      let exists_ := fst probe in
      if negb exists_ then
        e <- CreateDB dialect dbConfig ;;
        match e with
        | Some err => ret (Err err)
        | None => ret (Ok sess)
        end
      else
        Close sess ;;;
        r2 <- CreateSession dialect dbConfig false ;;
        match r2 with
        | Err err => ret (Err err)
        | Ok sess2 => ret (Ok sess2)
        end
  end.

End Framework.

(** ** A model of the server: a catalog of databases

    Used for the concrete runs below.  The server answers the two catalog
    queries of [DBExists] as the engines do: PostgreSQL's query folds case
    on both sides, MySQL's compares the name as stored. *)

Definition lower_ascii (c : ascii) : ascii :=
  let n := nat_of_ascii c in
  if ((65 <=? n) && (n <=? 90))%nat then ascii_of_nat (n + 32) else c.

Fixpoint lower (s : string) : string :=
  match s with
  | EmptyString => EmptyString
  | String c s' => String (lower_ascii c) (lower s')
  end.

Fixpoint strip_prefix (p s : string) : option string :=
  match p, s with
  | EmptyString, _ => Some s
  | String a p', String b s' =>
      if Ascii.eqb a b then strip_prefix p' s' else None
  | String _ _, EmptyString => None
  end.

Fixpoint strip_suffix (suf s : string) : option string :=
  if s =? suf then Some EmptyString
  else match s with
       | EmptyString => None
       | String c s' => option_map (String c) (strip_suffix suf s')
       end.

(** The text between a fixed head and a fixed tail of a statement. *)
Definition between (pre suf sql : string) : option string :=
  match strip_prefix pre sql with
  | Some rest => strip_suffix suf rest
  | None => None
  end.

Record Server := {
  engine       : Adapter;
  catalog      : list string;        (* the databases when the run starts *)
  create_error : option string       (* what CREATE DATABASE fails with *)
}.

Definition Adapter_eqb (a b : Adapter) : bool :=
  match a, b with
  | Postgresql, Postgresql | Mysql, Mysql => true
  | _, _ => false
  end.

Definition server_open (srv : Server) (a : Adapter) (settings : ConnectionURL)
  : option string :=
  if negb (Adapter_eqb a (engine srv)) then Some "connection refused"
  else if cuDatabase settings =? "" then None
  else if existsb (String.eqb (cuDatabase settings)) (catalog srv) then None
  else Some "unknown database".

Definition server_query (srv : Server) (sql : string) : string + Row :=
  match engine srv with
  | Postgresql =>
      match between
              "SELECT datname FROM pg_catalog.pg_database WHERE lower(datname) = lower('"
              "')" sql with
      | Some name =>
          inr (find (fun d => lower d =? lower name) (catalog srv))
      | None => inl "syntax error"
      end
  | Mysql =>
      match between
              "SELECT SCHEMA_NAME FROM INFORMATION_SCHEMA.SCHEMATA WHERE SCHEMA_NAME = '"
              "'" sql with
      | Some name => inr (find (fun d => d =? name) (catalog srv))
      | None => inl "syntax error"
      end
  end.

Definition server_exec (srv : Server) (sql : string) : string + Result :=
  match create_error srv with
  | Some msg => inl msg
  | None => inr SomeResult
  end.

Definition server_driver (srv : Server) : Driver :=
  {| open_reply  := fun _ a settings => server_open srv a settings;
     query_reply := fun _ _ sql => server_query srv sql;
     exec_reply  := fun _ _ sql => server_exec srv sql |}.

(** A server on which every catalog query fails to execute. *)
Definition broken_catalog_driver (srv : Server) : Driver :=
  {| open_reply  := fun _ a settings => server_open srv a settings;
     query_reply := fun _ _ _ => inl "permission denied for pg_database";
     exec_reply  := fun _ _ sql => server_exec srv sql |}.

(** ** The dialect dispatch, for stating results

    The code compares the dialect string in [if] chains; these name the
    outcome of the chain. *)

Definition adapter_of (dialect : string) : option Adapter :=
  if dialect =? "postgres" then Some Postgresql
  else if dialect =? "mysql" then Some Mysql
  else None.

Definition exists_sql (a : Adapter) (name : string) : string :=
  match a with
  | Postgresql => postgres_exists_sql name
  | Mysql => mysql_exists_sql name
  end.

Definition create_sql (a : Adapter) (dbConfig : DBConfig) : string :=
  match a with
  | Postgresql => postgres_create_sql dbConfig
  | Mysql => mysql_create_sql dbConfig
  end.

(** The dialects the code knows. *)
Definition supported (dialect : string) : Prop :=
  dialect = "postgres" \/ dialect = "mysql".

(** ** Concrete servers and a configuration for the runs below *)

Definition postgres_server (dbs : list string) : Server :=
  {| engine := Postgresql; catalog := dbs; create_error := None |}.

Definition mysql_server (dbs : list string) : Server :=
  {| engine := Mysql; catalog := dbs; create_error := None |}.

Definition app_config (name : string) : DBConfig :=
  {| Host := "localhost"; Port := 5432%Z; User := "lemmego";
     Password := "secret"; Database := name |}.

(** ** The spec's wording of three behaviours, to compare with the code *)



(** "When the existence probe fails with a query-execution error, the
    orchestrator surfaces that probe error and does not invoke the
    provisioner." *)
Definition probe_error_is_surfaced (drv : Driver) (dialect : string)
  (dbConfig : DBConfig) : Prop :=
  forall s1 tr1 cause tr2,
    CreateSession drv dialect dbConfig true [] = (Ok s1, tr1) ->
    DBExists drv dialect dbConfig tr1 =
      ((false, Some (Errorf "failed to check db existence" cause)), tr2) ->
    fst (ConnectDB drv dialect dbConfig []) =
      Err (Errorf "failed to check db existence" cause) /\
    exec_stmts (snd (ConnectDB drv dialect dbConfig [])) = [].

(** "When the catalog query executes and returns no matching row, the
    probe returns existence=false with no error." *)
Definition no_row_is_false_without_error (drv : Driver) (dialect : string)
  (dbConfig : DBConfig) : Prop :=
  forall a s,
    adapter_of dialect = Some a ->
    open_reply drv [] a (server_settings dbConfig) = None ->
    query_reply drv [EvOpen a (server_settings dbConfig) s] s
      (exists_sql a (Database dbConfig)) = inr None ->
    fst (DBExists drv dialect dbConfig []) = (false, None).

(** A PostgreSQL server on which CREATE DATABASE is refused. *)
Definition readonly_postgres_server (dbs : list string) : Server :=
  {| engine := Postgresql; catalog := dbs;
     create_error := Some "permission denied to create database" |}.

(** Two configurations that agree on everything but the port. *)
Definition same_but_port (c1 c2 : DBConfig) : Prop :=
  Host c1 = Host c2 /\ User c1 = User c2 /\
  Password c1 = Password c2 /\ Database c1 = Database c2.

(** * Regular expressions, as package regexp matches them

    The patterns of package vee are anchored at both ends ([^...$], no
    flags), so [MatchString] holds exactly when the whole rune sequence of
    the value is in the language of the pattern between the anchors. *)

Module Regexp.

Inductive regex :=
| Void                                 (* no sequence at all *)
| Eps                                  (* the empty sequence *)
| Class (ranges : list (Z * Z))        (* [...]: a rune in one of the ranges *)
| Cat (r1 r2 : regex)                  (* r1 r2 *)
| Alt (r1 r2 : regex)                  (* r1|r2 *)
| Star (r : regex).                    (* r* *)

(** The code point of an ASCII character. *)
Definition code (c : ascii) : Z := Z.of_nat (nat_of_ascii c).

(** [lo-hi] inside a class, and a single character inside a class. *)
Definition range (lo hi : ascii) : Z * Z := (code lo, code hi).
Definition one (c : ascii) : Z * Z := (code c, code c).

(** A literal character. *)
Definition Chr (c : ascii) : regex := Class [one c].

Definition in_class (ranges : list (Z * Z)) (c : Z) : bool :=
  existsb (fun r => ((fst r <=? c) && (c <=? snd r))%Z) ranges.

(** [r{n}] *)
Fixpoint times (n : nat) (r : regex) : regex :=
  match n with
  | O => Eps
  | S n' => Cat r (times n' r)
  end.

(** [r{0,n}] *)
Fixpoint upto (n : nat) (r : regex) : regex :=
  match n with
  | O => Eps
  | S n' => Alt Eps (Cat r (upto n' r))
  end.

(** [r{n,m}] *)
Definition from_to (n m : nat) (r : regex) : regex :=
  Cat (times n r) (upto (m - n) r).

(** [r+] *)
Definition plus (r : regex) : regex := Cat r (Star r).

(** Matching by derivatives. *)
Fixpoint nullable (r : regex) : bool :=
  match r with
  | Void => false
  | Eps => true
  | Class _ => false
  | Cat r1 r2 => nullable r1 && nullable r2
  | Alt r1 r2 => nullable r1 || nullable r2
  | Star _ => true
  end.

Fixpoint deriv (c : Z) (r : regex) : regex :=
  match r with
  | Void => Void
  | Eps => Void
  | Class ranges => if in_class ranges c then Eps else Void
  | Cat r1 r2 =>
      if nullable r1
      then Alt (Cat (deriv c r1) r2) (deriv c r2)
      else Cat (deriv c r1) r2
  | Alt r1 r2 => Alt (deriv c r1) (deriv c r2)
  | Star r1 => Cat (deriv c r1) (Star r1)
  end.

Fixpoint matches (r : regex) (s : list Z) : bool :=
  match s with
  | [] => nullable r
  | c :: rest => matches (deriv c r) rest
  end.

(** The language of a pattern. *)
Inductive Lang : regex -> list Z -> Prop :=
| LangEps : Lang Eps []
| LangClass ranges c : in_class ranges c = true -> Lang (Class ranges) [c]
| LangCat r1 r2 s1 s2 :
    Lang r1 s1 -> Lang r2 s2 -> Lang (Cat r1 r2) (s1 ++ s2)
| LangAltL r1 r2 s : Lang r1 s -> Lang (Alt r1 r2) s
| LangAltR r1 r2 s : Lang r2 s -> Lang (Alt r1 r2) s
| LangStarNil r : Lang (Star r) []
| LangStarCons r s1 s2 :
    Lang r s1 -> Lang (Star r) s2 -> Lang (Star r) (s1 ++ s2).

End Regexp.

(** * Package vee: the field validator

    [Validator] collects error messages per field in a
    [map[string][]string]; every check returns whether the value passed and
    records one message when it did not. *)

From Stdlib Require Import DecimalString.

Module Vee.

(** [map[string][]string], as the list of its entries; a key occurs once
    ([wf]).  The order of the entries stands for nothing in Go. *)
Definition ErrorMap := list (string * list string).

Definition wf (m : ErrorMap) : Prop := NoDup (map fst m).

Fixpoint lookup (m : ErrorMap) (k : string) : option (list string) :=
  match m with
  | [] => None
  | (k', v) :: m' => if k' =? k then Some v else lookup m' k
  end.

(** [m[k]]: the nil slice when the key is absent. *)
Definition index (m : ErrorMap) (k : string) : list string :=
  match lookup m k with Some v => v | None => [] end.

(** [m[k] = v] *)
Fixpoint store (m : ErrorMap) (k : string) (v : list string) : ErrorMap :=
  match m with
  | [] => [(k, v)]
  | (k', v') :: m' =>
      if k' =? k then (k', v) :: m' else (k', v') :: store m' k v
  end.

(** [len(m)] *)
Definition len (m : ErrorMap) : nat := length m.

(** [type Validator struct { Errors map[string][]string }] *)
Record Validator := { Errors : ErrorMap }.

Definition NewValidator : Validator := {| Errors := [] |}.

(** [v.Errors[field] = append(v.Errors[field], message)] *)
Definition AddError (v : Validator) (field message : string) : Validator :=
  {| Errors := store (Errors v) field (index (Errors v) field ++ [message]) |}.

Definition IsValid (v : Validator) : bool := Nat.eqb (len (Errors v)) 0.

Definition ErrorsJSON (v : Validator) : ErrorMap := Errors v.

(** A check: whether the value passed, and the validator after the call. *)
Definition Check := Validator -> bool * Validator.

(** The shape all checks share: on failure record [message] under [field]
    and return false, else return true. *)
Definition fail_with (field message : string) : Check :=
  fun v => (false, AddError v field message).

Definition pass : Check := fun v => (true, v).

(** An [interface{}] argument, by its dynamic type. *)
#[warnings="-register-all"]
Inductive value :=
| VNil                                     (* the nil interface *)
| VString (s : string)
| VBool (b : bool)
| VInt (n : Z)
| VSlice (xs : list value)                 (* []interface{} *)
| VMap (m : list (string * value))         (* map[string]interface{} *)
| VOther (type_name : string).             (* any other dynamic type *)

(** [value == nil || value == ""] on an interface: equal only when the
    dynamic type is string and the string is empty. *)
Definition Required (field : string) (value : value) : Check :=
  match value with
  | VNil => fail_with field "This field is required"
  | VString s =>
      if s =? "" then fail_with field "This field is required" else pass
  | _ => pass
  end.

(** [strconv.Itoa] *)
Definition Itoa (n : Z) : string := NilZero.string_of_int (Z.to_int n).

Definition Min (field : string) (value min : Z) : Check :=
  if (value <? min)%Z
  then fail_with field ("This field must be at least " ++ Itoa min)%string
  else pass.

Definition Max (field : string) (value max : Z) : Check :=
  if (value >? max)%Z
  then fail_with field ("This field must not exceed " ++ Itoa max)%string
  else pass.

Definition Between (field : string) (value min max : Z) : Check :=
  if ((value <? min) || (value >? max))%Z
  then fail_with field
         ("This field must be between " ++ Itoa min ++ " and "
            ++ Itoa max)%string
  else pass.

(** The Unicode data and decoding the checks rely on: the runes that
    [range value] yields, [unicode.IsLetter], [unicode.IsDigit] and
    [strings.ToLower]. *)
Record Unicode := {
  runes    : string -> list Z;
  IsLetter : Z -> bool;
  IsDigit  : Z -> bool;
  ToLower  : string -> string
}.

(** [for _, char := range value { if bad(char) { AddError; return false } }
    return true] *)
Fixpoint range_check (bad : Z -> bool) (field message : string)
  (chars : list Z) : Check :=
  match chars with
  | [] => pass
  | char :: rest =>
      if bad char then fail_with field message
      else range_check bad field message rest
  end.

Definition Alpha (u : Unicode) (field value : string) : Check :=
  range_check (fun char => negb (IsLetter u char)) field
    "This field must contain only alphabetic characters" (runes u value).

Definition Numeric (u : Unicode) (field value : string) : Check :=
  range_check (fun char => negb (IsDigit u char)) field
    "This field must contain only numeric characters" (runes u value).

Definition AlphaNumeric (u : Unicode) (field value : string) : Check :=
  range_check
    (fun char => negb (IsLetter u char) && negb (IsDigit u char)) field
    "This field must contain only alphanumeric characters" (runes u value).

(** [unicode.MaxASCII] *)
Definition MaxASCII : Z := 127.

Definition Ascii (u : Unicode) (field value : string) : Check :=
  range_check (fun char => (char >? MaxASCII)%Z) field
    "This field may only contain ASCII characters" (runes u value).

(** [strings.Join] *)
Definition Join (elems : list string) (sep : string) : string :=
  String.concat sep elems.

(** The loop of [In]: true as soon as one valid value equals the value. *)
Fixpoint In_loop (value : string) (validValues : list string) : bool :=
  match validValues with
  | [] => false
  | validValue :: rest =>
      if value =? validValue then true else In_loop value rest
  end.

Definition In (field value : string) (validValues : list string) : Check :=
  if In_loop value validValues then pass
  else fail_with field
         ("This field must be one of the following: "
            ++ Join validValues ", ")%string.

(** [strings.HasPrefix]:
    [len(s) >= len(prefix) && s[:len(prefix)] == prefix] *)
Definition HasPrefix (s prefix : string) : bool :=
  (String.length prefix <=? String.length s)%nat &&
  (substring 0 (String.length prefix) s =? prefix).

(** [strings.HasSuffix]:
    [len(s) >= len(suffix) && s[len(s)-len(suffix):] == suffix] *)
Definition HasSuffix (s suffix : string) : bool :=
  (String.length suffix <=? String.length s)%nat &&
  (substring (String.length s - String.length suffix)
     (String.length suffix) s =? suffix).

Definition StartsWith (field value prefix : string) : Check :=
  if HasPrefix value prefix then pass
  else fail_with field ("This field must start with " ++ prefix)%string.

Definition EndsWith (field value suffix : string) : Check :=
  if HasSuffix value suffix then pass
  else fail_with field ("This field must end with " ++ suffix)%string.

(** [Boolean]'s type switch; a case that does not return falls out of the
    switch to the error. *)
Definition Boolean (u : Unicode) (field : string) (value : value) : Check :=
  let failed := fail_with field "This field must be a boolean value" in
  match value with
  | VBool _ => pass
  | VString s =>
      let lowercaseValue := ToLower u s in
      if (lowercaseValue =? "true") || (lowercaseValue =? "false")
      then pass else failed
  | VInt intValue =>
      if ((intValue =? 0) || (intValue =? 1))%Z then pass else failed
  | _ => failed
  end.

(** [Filled]'s type switch; a case that does not return falls out of the
    switch to [return true]. *)
Definition Filled (field : string) (value : value) : Check :=
  let failed := fail_with field "This field must be filled" in
  match value with
  | VString val => if val =? "" then failed else pass
  | VSlice val => if Nat.eqb (length val) 0 then failed else pass
  | VMap val => if Nat.eqb (length val) 0 then failed else pass
  | VNil => failed
  | _ => pass
  end.

(** [Distinct] over values of a comparable dynamic type [A] (an
    unhashable element makes the Go code panic at [seen[value]]); [seen]
    is the set of keys of the map. *)
Section Distinct.

Context {A : Type} (A_eq_dec : forall x y : A, {x = y} + {x <> y}).

Fixpoint Distinct_loop (field : string) (values seen : list A) : Check :=
  match values with
  | [] => pass
  | value :: rest =>
      if in_dec A_eq_dec value seen
      then fail_with field "This field must contain only unique values"
      else Distinct_loop field rest (value :: seen)
  end.

Definition Distinct (field : string) (values : list A) : Check :=
  Distinct_loop field values [].

End Distinct.

(** [strings.Contains]: [strings.Index(s, substr) >= 0] *)
Definition Contains_string (s substr : string) : bool :=
  match String.index 0 substr s with Some _ => true | None => false end.

Definition Contains (field value substring : string) : Check :=
  if Contains_string value substring then pass
  else fail_with field ("This field must contain " ++ substring)%string.

(** [regexp.MustCompile(pattern).MatchString(value)] for a pattern
    [^r$]: the runes of the value against [r]. *)
Definition MatchString (u : Unicode) (r : Regexp.regex) (value : string)
  : bool :=
  Regexp.matches r (runes u value).

(** [^[a-z0-9._%+\-]+@[a-z0-9.\-]+\.[a-z]{2,4}$] *)
Definition email_local : list (Z * Z) :=
  [Regexp.range "a" "z"; Regexp.range "0" "9"; Regexp.one ".";
   Regexp.one "_"; Regexp.one "%"; Regexp.one "+"; Regexp.one "-"]%char.

Definition email_domain : list (Z * Z) :=
  [Regexp.range "a" "z"; Regexp.range "0" "9"; Regexp.one ".";
   Regexp.one "-"]%char.

Definition email_tld : list (Z * Z) := [Regexp.range "a" "z"]%char.

Definition emailRegex : Regexp.regex :=
  Regexp.Cat (Regexp.plus (Regexp.Class email_local))
    (Regexp.Cat (Regexp.Chr "@")
       (Regexp.Cat (Regexp.plus (Regexp.Class email_domain))
          (Regexp.Cat (Regexp.Chr ".")
             (Regexp.from_to 2 4 (Regexp.Class email_tld))))).

Definition Email (u : Unicode) (field value : string) : Check :=
  if negb (MatchString u emailRegex value)
  then fail_with field "This field must be a valid email address"
  else pass.

(** [^[a-zA-Z0-9-_]+$] *)
Definition alpha_dash : list (Z * Z) :=
  [Regexp.range "a" "z"; Regexp.range "A" "Z"; Regexp.range "0" "9";
   Regexp.one "-"; Regexp.one "_"]%char.

Definition AlphaDash (u : Unicode) (field value : string) : Check :=
  if negb (MatchString u (Regexp.plus (Regexp.Class alpha_dash)) value)
  then fail_with field
         "This field may only contain alpha-numeric characters, dashes, and underscores"
  else pass.

(** [^[0-9A-HJKMNP-TV-Z]{26}$] *)
Definition ulid_class : list (Z * Z) :=
  [Regexp.range "0" "9"; Regexp.range "A" "H"; Regexp.one "J";
   Regexp.one "K"; Regexp.one "M"; Regexp.one "N"; Regexp.range "P" "T";
   Regexp.range "V" "Z"]%char.

Definition ULID (u : Unicode) (field value : string) : Check :=
  if negb (MatchString u (Regexp.times 26 (Regexp.Class ulid_class)) value)
  then fail_with field "This field must be a valid ULID"
  else pass.

(** [^#([A-Fa-f0-9]{6}|[A-Fa-f0-9]{3})$] *)
Definition hex_digit : list (Z * Z) :=
  [Regexp.range "A" "F"; Regexp.range "a" "f"; Regexp.range "0" "9"]%char.

Definition hexColorRegex : Regexp.regex :=
  Regexp.Cat (Regexp.Chr "#")
    (Regexp.Alt (Regexp.times 6 (Regexp.Class hex_digit))
       (Regexp.times 3 (Regexp.Class hex_digit))).

Definition HexColor (u : Unicode) (field value : string) : Check :=
  if negb (MatchString u hexColorRegex value)
  then fail_with field "This field must be a valid hexadecimal color code"
  else pass.

(** One call of a check, as data, so that sequences of calls can be
    stated. *)
Inductive rule :=
| CallRequired (field : string) (value : value)
| CallMin (field : string) (value min : Z)
| CallMax (field : string) (value max : Z)
| CallBetween (field : string) (value min max : Z)
| CallAlpha (field value : string)
| CallNumeric (field value : string)
| CallAlphaNumeric (field value : string)
| CallAscii (field value : string)
| CallIn (field value : string) (validValues : list string)
| CallStartsWith (field value prefix : string)
| CallEndsWith (field value suffix : string)
| CallBoolean (field : string) (value : value)
| CallFilled (field : string) (value : value)
| CallDistinct (field : string) (values : list Z)
| CallContains (field value substring : string)
| CallEmail (field value : string)
| CallAlphaDash (field value : string)
| CallULID (field value : string)
| CallHexColor (field value : string).

Definition call (u : Unicode) (r : rule) : Check :=
  match r with
  | CallRequired field value => Required field value
  | CallMin field value min => Min field value min
  | CallMax field value max => Max field value max
  | CallBetween field value min max => Between field value min max
  | CallAlpha field value => Alpha u field value
  | CallNumeric field value => Numeric u field value
  | CallAlphaNumeric field value => AlphaNumeric u field value
  | CallAscii field value => Ascii u field value
  | CallIn field value validValues => In field value validValues
  | CallStartsWith field value prefix => StartsWith field value prefix
  | CallEndsWith field value suffix => EndsWith field value suffix
  | CallBoolean field value => Boolean u field value
  | CallFilled field value => Filled field value
  | CallDistinct field values => Distinct Z.eq_dec field values
  | CallContains field value substring => Contains field value substring
  | CallEmail field value => Email u field value
  | CallAlphaDash field value => AlphaDash u field value
  | CallULID field value => ULID u field value
  | CallHexColor field value => HexColor u field value
  end.

(** The field a call reports under. *)
Definition field_of (r : rule) : string :=
  match r with
  | CallRequired field _ | CallMin field _ _ | CallMax field _ _
  | CallBetween field _ _ _ | CallAlpha field _ | CallNumeric field _
  | CallAlphaNumeric field _ | CallAscii field _ | CallIn field _ _
  | CallStartsWith field _ _ | CallEndsWith field _ _
  | CallBoolean field _ | CallFilled field _ | CallDistinct field _
  | CallContains field _ _ | CallEmail field _ | CallAlphaDash field _
  | CallULID field _ | CallHexColor field _ => field
  end.

(** Calls made one after the other on the same validator; the results in
    call order. *)
Fixpoint calls (u : Unicode) (rs : list rule) (v : Validator)
  : list bool * Validator :=
  match rs with
  | [] => ([], v)
  | r :: rest =>
      let (ok, v1) := call u r v in
      let (oks, v2) := calls u rest v1 in
      (ok :: oks, v2)
  end.

(** All messages recorded, over all fields. *)
Definition message_count (v : Validator) : nat :=
  list_sum (map (fun entry => length (snd entry)) (Errors v)).

(** A table for ASCII text: one rune per byte, letters and digits as in
    ASCII. *)
Definition ascii_unicode : Unicode :=
  {| runes := fun s => map (fun c => Z.of_nat (nat_of_ascii c))
                         (list_ascii_of_string s);
     IsLetter := fun r => ((65 <=? r) && (r <=? 90) ||
                           (97 <=? r) && (r <=? 122))%Z;
     IsDigit := fun r => ((48 <=? r) && (r <=? 57))%Z;
     ToLower := lower |}.

End Vee.

(** * Package fsys: storage on the local file system

    The operating system is the environment, as the driver is above:
    every call is recorded, and the replies are an arbitrary function of
    the calls so far. *)

Module Fsys.

(** [type LocalStorage struct { RootDirectory string }] *)
Record LocalStorage := { RootDirectory : string }.

(** An error of package os, with what [os.IsNotExist] says of it. *)
Record os_error := { message : string; not_exist : bool }.

(** An open [*os.File]. *)
Definition File := nat.

Inductive event :=
| EvOpen (path : string) (f : File)              (* os.Open, succeeded *)
| EvOpenFail (path : string) (err : os_error)
| EvCreate (path : string) (f : File)            (* os.Create, succeeded *)
| EvCreateFail (path : string) (err : os_error)
| EvWrite (f : File) (contents : string)         (* file.Write *)
| EvCopy (dst src : File)                        (* io.Copy(dst, src) *)
| EvClose (f : File)                             (* file.Close *)
| EvRemove (path : string)                       (* os.Remove *)
| EvStat (path : string)                         (* os.Stat *)
| EvRename (oldpath newpath : string).           (* os.Rename *)

Definition Trace := list event.

Record OS := {
  open_reply   : Trace -> string -> option os_error;
  create_reply : Trace -> string -> option os_error;
  write_reply  : Trace -> File -> string -> option os_error;
  copy_reply   : Trace -> File -> File -> option os_error;
  remove_reply : Trace -> string -> option os_error;
  stat_reply   : Trace -> string -> option os_error;
  rename_reply : Trace -> string -> string -> option os_error
}.

(** The files a block of calls opened or created, the files it closed,
    the paths it created and the paths it named at all, in call order. *)
Definition opened_of (e : event) : list File :=
  match e with EvOpen _ f | EvCreate _ f => [f] | _ => [] end.

Definition closed_of (e : event) : list File :=
  match e with EvClose f => [f] | _ => [] end.


Definition paths_of (e : event) : list string :=
  match e with
  | EvOpen p _ | EvOpenFail p _ | EvCreate p _ | EvCreateFail p _
  | EvRemove p | EvStat p => [p]
  | EvRename p q => [p; q]
  | EvWrite _ _ | EvCopy _ _ | EvClose _ => []
  end.

Definition opened (tr : Trace) : list File := flat_map opened_of tr.
Definition closed (tr : Trace) : list File := flat_map closed_of tr.
Definition paths (tr : Trace) : list string := flat_map paths_of tr.

(** A file handle no earlier call has handed out: the position of the
    call in the trace. *)
Definition next_file (tr : Trace) : File := length tr.

Definition M (A : Type) : Type := Trace -> A * Trace.

Section Calls.

Variable os : OS.

Definition os_Open (path : string) : M (File + os_error) :=
  fun tr =>
    match open_reply os tr path with
    | Some err => (inr err, tr ++ [EvOpenFail path err])
    | None => (inl (next_file tr), tr ++ [EvOpen path (next_file tr)])
    end.

Definition os_Create (path : string) : M (File + os_error) :=
  fun tr =>
    match create_reply os tr path with
    | Some err => (inr err, tr ++ [EvCreateFail path err])
    | None => (inl (next_file tr), tr ++ [EvCreate path (next_file tr)])
    end.

Definition file_Write (f : File) (contents : string) : M (option os_error) :=
  fun tr => (write_reply os tr f contents, tr ++ [EvWrite f contents]).

Definition io_Copy (dst src : File) : M (option os_error) :=
  fun tr => (copy_reply os tr dst src, tr ++ [EvCopy dst src]).

Definition file_Close (f : File) : M unit :=
  fun tr => (tt, tr ++ [EvClose f]).

(** [fullPath := ls.RootDirectory + "/" + path] *)
Definition fullPath (ls : LocalStorage) (path : string) : string :=
  (RootDirectory ls ++ "/" ++ path)%string.

(** [Read]: the open file goes to the caller. *)
Definition Read (ls : LocalStorage) (path : string) : M (File + os_error) :=
  os_Open (fullPath ls path).

Definition Write (ls : LocalStorage) (path contents : string)
  : M (option os_error) :=
  fun tr =>
    match os_Create (fullPath ls path) tr with
    | (inr err, tr1) => (Some err, tr1)
    | (inl file, tr1) =>
        let (err, tr2) := file_Write file contents tr1 in
        (* deferred: file.Close() *)
        let (_, tr3) := file_Close file tr2 in
        (err, tr3)
    end.

Definition Delete (ls : LocalStorage) (path : string) : M (option os_error) :=
  fun tr => (remove_reply os tr (fullPath ls path),
             tr ++ [EvRemove (fullPath ls path)]).

(** [os.IsNotExist(err)]: false for the nil error. *)
Definition IsNotExist (err : option os_error) : bool :=
  match err with Some e => not_exist e | None => false end.

Definition Exists (ls : LocalStorage) (path : string)
  : M (bool * option os_error) :=
  fun tr =>
    let err := stat_reply os tr (fullPath ls path) in
    let tr1 := tr ++ [EvStat (fullPath ls path)] in
    if IsNotExist err then ((false, None), tr1) else ((true, err), tr1).

Definition Rename (ls : LocalStorage) (oldPath newPath : string)
  : M (option os_error) :=
  fun tr => (rename_reply os tr (fullPath ls oldPath) (fullPath ls newPath),
             tr ++ [EvRename (fullPath ls oldPath) (fullPath ls newPath)]).

Definition Copy (ls : LocalStorage) (sourcePath destinationPath : string)
  : M (option os_error) :=
  fun tr =>
    match os_Open (fullPath ls sourcePath) tr with
    | (inr err, tr1) => (Some err, tr1)
    | (inl sourceFile, tr1) =>
        match os_Create (fullPath ls destinationPath) tr1 with
        | (inr err, tr2) =>
            (* deferred: sourceFile.Close() *)
            let (_, tr3) := file_Close sourceFile tr2 in
            (Some err, tr3)
        | (inl destinationFile, tr2) =>
            let (err, tr3) := io_Copy destinationFile sourceFile tr2 in
            (* deferred, last in first out *)
            let (_, tr4) := file_Close destinationFile tr3 in
            let (_, tr5) := file_Close sourceFile tr4 in
            (err, tr5)
        end
    end.

End Calls.

(** One operation of the storage, as data. *)
Inductive operation :=
| DoRead (path : string)
| DoWrite (path contents : string)
| DoDelete (path : string)
| DoExists (path : string)
| DoRename (oldPath newPath : string)
| DoCopy (sourcePath destinationPath : string).

(** The trace after an operation. *)
Definition run (os : OS) (ls : LocalStorage) (op : operation) (tr : Trace)
  : Trace :=
  match op with
  | DoRead path => snd (Read os ls path tr)
  | DoWrite path contents => snd (Write os ls path contents tr)
  | DoDelete path => snd (Delete os ls path tr)
  | DoExists path => snd (Exists os ls path tr)
  | DoRename oldPath newPath => snd (Rename os ls oldPath newPath tr)
  | DoCopy sourcePath destinationPath =>
      snd (Copy os ls sourcePath destinationPath tr)
  end.

(** The paths an operation was given. *)
Definition given_paths (op : operation) : list string :=
  match op with
  | DoRead path | DoWrite path _ | DoDelete path | DoExists path => [path]
  | DoRename oldPath newPath => [oldPath; newPath]
  | DoCopy sourcePath destinationPath => [sourcePath; destinationPath]
  end.

(** A disk on which every call succeeds, and one where nothing exists. *)
Definition ok_os : OS :=
  {| open_reply := fun _ _ => None; create_reply := fun _ _ => None;
     write_reply := fun _ _ _ => None; copy_reply := fun _ _ _ => None;
     remove_reply := fun _ _ => None; stat_reply := fun _ _ => None;
     rename_reply := fun _ _ _ => None |}.

Definition no_such_file : os_error :=
  {| message := "no such file or directory"; not_exist := true |}.

Definition empty_os : OS :=
  {| open_reply := fun _ _ => Some no_such_file;
     create_reply := fun _ _ => None;
     write_reply := fun _ _ _ => None; copy_reply := fun _ _ _ => None;
     remove_reply := fun _ _ => Some no_such_file;
     stat_reply := fun _ _ => Some no_such_file;
     rename_reply := fun _ _ _ => Some no_such_file |}.

End Fsys.

(** * Results *)

(** ** Traces *)

Lemma opened_app (t1 t2 : Trace) : opened (t1 ++ t2) = opened t1 ++ opened t2.
Proof. apply flat_map_app. Qed.

Lemma closed_app (t1 t2 : Trace) : closed (t1 ++ t2) = closed t1 ++ closed t2.
Proof. apply flat_map_app. Qed.

Lemma exec_stmts_app (t1 t2 : Trace) :
  exec_stmts (t1 ++ t2) = exec_stmts t1 ++ exec_stmts t2.
Proof. apply flat_map_app. Qed.

Lemma close_count_app (s : Session) (t1 t2 : Trace) :
  close_count s (t1 ++ t2) = close_count s t1 + close_count s t2.
Proof. unfold close_count. rewrite closed_app. apply count_occ_app. Qed.

Lemma opened_below_fresh (tr : Trace) (s : Session) :
  In s (opened tr) -> s < fresh tr.
Proof.
  intros Hin. unfold fresh.
  assert (H : Forall (fun k => k <= list_max (map S (opened tr)))
                (map S (opened tr))) by (apply list_max_le; lia).
  rewrite Forall_forall in H.
  specialize (H (S s) (in_map S _ _ Hin)). lia.
Qed.

Lemma fresh_not_opened (tr : Trace) : ~ In (fresh tr) (opened tr).
Proof. intros Hin. apply opened_below_fresh in Hin. lia. Qed.

(** ** The dialect chain *)

Lemma adapter_of_cases (dialect : string) :
  (dialect = "postgres" /\ adapter_of dialect = Some Postgresql) \/
  (dialect = "mysql" /\ adapter_of dialect = Some Mysql) \/
  (dialect <> "postgres" /\ dialect <> "mysql" /\ adapter_of dialect = None).
Proof.
  unfold adapter_of.
  destruct (String.eqb_spec dialect "postgres") as [Hp | Hp]; [now left |].
  destruct (String.eqb_spec dialect "mysql") as [Hm | Hm]; [now right; left |].
  now right; right.
Qed.

Ltac dialect_cases dialect :=
  let H := fresh "Hd" in
  destruct (adapter_of_cases dialect) as [[-> H] | [[-> H] | (? & ? & H)]].

(** Several events appended one by one are one appended block. *)
Ltac flatten_trace := repeat rewrite <- app_assoc; simpl app.

(** ** What one call does *)

Section Runs.

Variable drv : Driver.

Lemma CreateSession_run dialect dbConfig ignoreDb tr a :
  adapter_of dialect = Some a ->
  CreateSession drv dialect dbConfig ignoreDb tr =
    let settings := session_settings dbConfig ignoreDb in
    match open_reply drv tr a settings with
    | Some msg => (Err (Errorf "failed to connect" (DriverError msg)),
                   tr ++ [EvOpenFail a settings msg])
    | None => (Ok (fresh tr), tr ++ [EvOpen a settings (fresh tr)])
    end.
Proof.
  intros Ha.
  dialect_cases dialect; rewrite Ha in Hd; inversion Hd; subst a;
    cbn; unfold CreateSession_branch, bind, driver_Open, ret;
    destruct (open_reply drv tr _ _); reflexivity.
Qed.

Lemma CreateSession_unknown dialect dbConfig ignoreDb tr :
  adapter_of dialect = None ->
  CreateSession drv dialect dbConfig ignoreDb tr = (Err ErrUnknownDialect, tr).
Proof.
  unfold adapter_of, CreateSession. intros Ha.
  destruct (dialect =? "postgres"); [discriminate |].
  destruct (dialect =? "mysql"); [discriminate |]. reflexivity.
Qed.

Lemma DBExists_run dialect dbConfig tr a :
  adapter_of dialect = Some a ->
  DBExists drv dialect dbConfig tr =
    let settings := server_settings dbConfig in
    match open_reply drv tr a settings with
    | Some msg =>
        ((false, Some (Errorf "failed to connect" (DriverError msg))),
         tr ++ [EvOpenFail a settings msg])
    | None =>
        let s := fresh tr in
        let sql := exists_sql a (Database dbConfig) in
        (match query_reply drv (tr ++ [EvOpen a settings s]) s sql with
         | inl msg =>
             (false,
              Some (Errorf "failed to check db existence" (DriverError msg)))
         | inr row =>
             if Scan row =? Database dbConfig then (true, None)
             else (false, Some ErrNoSuchDatabase)
         end,
         tr ++ [EvOpen a settings s; EvQueryRow s sql; EvLog s; EvClose s])
    end.
Proof.
  intros Ha.
  dialect_cases dialect; rewrite Ha in Hd; inversion Hd; subst a;
    cbn -[postgres_exists_sql mysql_exists_sql];
    unfold DBExists, DBExists_body, DBExists_branch, bind, driver_Open,
      QueryRow, deferred_close, Close, emit, ret;
    cbn -[postgres_exists_sql mysql_exists_sql];
    destruct (open_reply drv tr _ _); cbn -[postgres_exists_sql mysql_exists_sql];
    try reflexivity;
    destruct (query_reply drv _ _ _) as [msg | row];
    cbn -[postgres_exists_sql mysql_exists_sql];
    try (destruct (Scan row =? Database dbConfig));
    cbn -[postgres_exists_sql mysql_exists_sql];
    flatten_trace; reflexivity.
Qed.

Lemma DBExists_unknown dialect dbConfig tr :
  adapter_of dialect = None ->
  DBExists drv dialect dbConfig tr = ((false, Some ErrUnknownDialect), tr).
Proof.
  unfold adapter_of, DBExists, DBExists_body. intros Ha.
  destruct (dialect =? "postgres"); [discriminate |].
  destruct (dialect =? "mysql"); [discriminate |]. reflexivity.
Qed.

End Runs.

Section MoreRuns.

Variable drv : Driver.

Lemma session_settings_unscoped dbConfig :
  session_settings dbConfig true = server_settings dbConfig.
Proof. reflexivity. Qed.

Lemma CreateDB_run dialect dbConfig tr a :
  adapter_of dialect = Some a ->
  CreateDB drv dialect dbConfig tr =
    let settings := server_settings dbConfig in
    match open_reply drv tr a settings with
    | Some msg =>
        (Some (Errorf "failed to connect" (DriverError msg)),
         tr ++ [EvOpenFail a settings msg])
    | None =>
        let s := fresh tr in
        let sql := create_sql a dbConfig in
        (match exec_reply drv (tr ++ [EvOpen a settings s]) s sql with
         | inl msg => Some (DriverError msg)
         | inr _ => None
         end,
         tr ++ [EvOpen a settings s; EvExec s sql; EvLog s; EvClose s])
    end.
Proof.
  intros Ha. unfold CreateDB, CreateDB_body, bind.
  rewrite (CreateSession_run drv dialect dbConfig true tr a Ha).
  rewrite session_settings_unscoped. cbv zeta.
  destruct (open_reply drv tr a (server_settings dbConfig)) as [msg |];
    [reflexivity |].
  dialect_cases dialect; rewrite Ha in Hd; inversion Hd; subst a;
    cbn -[postgres_create_sql mysql_create_sql];
    unfold CreateDB_block, bind, Exec, deferred_close, Close, emit, ret;
    cbn -[postgres_create_sql mysql_create_sql];
    destruct (exec_reply drv _ _ _) as [msg | [ | ]];
    cbn -[postgres_create_sql mysql_create_sql];
    flatten_trace; reflexivity.
Qed.

Lemma CreateDB_unknown dialect dbConfig tr :
  adapter_of dialect = None ->
  CreateDB drv dialect dbConfig tr = (Some ErrUnknownDialect, tr).
Proof.
  intros Ha. unfold CreateDB, CreateDB_body, bind.
  rewrite (CreateSession_unknown drv dialect dbConfig true tr Ha).
  reflexivity.
Qed.

Lemma ConnectDB_unknown dialect dbConfig tr :
  adapter_of dialect = None ->
  ConnectDB drv dialect dbConfig tr = (Err ErrUnknownDialect, tr).
Proof.
  intros Ha. unfold ConnectDB, bind.
  rewrite (CreateSession_unknown drv dialect dbConfig true tr Ha).
  reflexivity.
Qed.

(** [ConnectDB] after its bootstrap session opened: the probe, then one of
    the two branches. *)
Lemma ConnectDB_run dialect dbConfig tr a :
  adapter_of dialect = Some a ->
  ConnectDB drv dialect dbConfig tr =
    let settings := server_settings dbConfig in
    match open_reply drv tr a settings with
    | Some msg =>
        (Err (Errorf "failed to connect" (DriverError msg)),
         tr ++ [EvOpenFail a settings msg])
    | None =>
        let s1 := fresh tr in
        let probe := DBExists drv dialect dbConfig (tr ++ [EvOpen a settings s1]) in
        if fst (fst probe)
        then CreateSession drv dialect dbConfig false
               (snd probe ++ [EvClose s1])
        else
          let made := CreateDB drv dialect dbConfig (snd probe) in
          (match fst made with Some err => Err err | None => Ok s1 end,
           snd made)
    end.
Proof.
  intros Ha. unfold ConnectDB, bind at 1.
  rewrite (CreateSession_run drv dialect dbConfig true tr a Ha).
  rewrite session_settings_unscoped. cbv zeta.
  destruct (open_reply drv tr a (server_settings dbConfig)) as [msg |];
    [reflexivity |].
  unfold bind at 1.
  destruct (DBExists drv dialect dbConfig _) as [[ex perr] tr2]. cbn [fst snd].
  destruct ex; cbn [negb].
  - unfold bind, Close, emit.
    destruct (CreateSession drv dialect dbConfig false _) as [[s2 | err] tr3];
      reflexivity.
  - unfold bind.
    destruct (CreateDB drv dialect dbConfig tr2) as [[err |] tr3]; reflexivity.
Qed.

End MoreRuns.

(** ** Unsupported dialects *)

Lemma supported_adapter dialect :
  supported dialect -> exists a, adapter_of dialect = Some a.
Proof. intros [-> | ->]; eexists; reflexivity. Qed.

Lemma unsupported_adapter dialect :
  dialect <> "postgres" -> dialect <> "mysql" -> adapter_of dialect = None.
Proof.
  intros Hp Hm. dialect_cases dialect; try contradiction. assumption.
Qed.

(** C6: for a dialect string other than "postgres" and "mysql", each of
    ConnectDB, DBExists, CreateDB and CreateSession returns
    ErrUnknownDialect and makes no call into the driver (the trace is
    left as it was); no supported dialect is substituted. *)
Theorem unsupported_dialect_no_io (drv : Driver) dialect dbConfig ignoreDb tr :
  dialect <> "postgres" -> dialect <> "mysql" ->
  ConnectDB drv dialect dbConfig tr = (Err ErrUnknownDialect, tr) /\
  DBExists drv dialect dbConfig tr = ((false, Some ErrUnknownDialect), tr) /\
  CreateDB drv dialect dbConfig tr = (Some ErrUnknownDialect, tr) /\
  CreateSession drv dialect dbConfig ignoreDb tr = (Err ErrUnknownDialect, tr).
Proof.
  intros Hp Hm. pose proof (unsupported_adapter dialect Hp Hm) as Ha.
  repeat split.
  - now apply ConnectDB_unknown.
  - now apply DBExists_unknown.
  - now apply CreateDB_unknown.
  - now apply CreateSession_unknown.
Qed.

Lemma unsupported_dialect_no_io_witness :
  "sqlite" <> "postgres" /\ "sqlite" <> "mysql" /\
  let drv := server_driver (postgres_server ["app"]) in
  let dbConfig := app_config "app" in
  ConnectDB drv "sqlite" dbConfig [] = (Err ErrUnknownDialect, []) /\
  DBExists drv "sqlite" dbConfig [] = ((false, Some ErrUnknownDialect), []) /\
  CreateDB drv "sqlite" dbConfig [] = (Some ErrUnknownDialect, []) /\
  CreateSession drv "sqlite" dbConfig false [] = (Err ErrUnknownDialect, []).
Proof.
  split; [discriminate |]. split; [discriminate |].
  apply (unsupported_dialect_no_io
           (server_driver (postgres_server ["app"])) "sqlite"
           (app_config "app") false []); discriminate.
Defined.

(** ** The session factory *)

(** C8: for a supported dialect, CreateSession makes one open attempt, and
    its settings are host, user and password, with the database name set
    exactly when the session is to be scoped ([ignoreDb] false); an
    unscoped call leaves the database empty. *)
Theorem CreateSession_scoping (drv : Driver) dialect dbConfig ignoreDb tr :
  supported dialect ->
  exists ev,
    snd (CreateSession drv dialect dbConfig ignoreDb tr) = tr ++ [ev] /\
    open_attempt_of ev =
      [{| cuHost := Host dbConfig; cuUser := User dbConfig;
          cuPassword := Password dbConfig;
          cuDatabase := if ignoreDb then "" else Database dbConfig |}].
Proof.
  intros Hs. destruct (supported_adapter dialect Hs) as [a Ha].
  rewrite (CreateSession_run drv dialect dbConfig ignoreDb tr a Ha). cbv zeta.
  destruct (open_reply drv tr a _) as [msg |]; eexists; split;
    try reflexivity; destruct ignoreDb; reflexivity.
Qed.

Lemma CreateSession_scoping_witness :
  supported "mysql" /\
  exists ev,
    snd (CreateSession (server_driver (mysql_server ["app"])) "mysql"
           (app_config "app") false []) = [] ++ [ev] /\
    open_attempt_of ev =
      [{| cuHost := "localhost"; cuUser := "lemmego";
          cuPassword := "secret"; cuDatabase := "app" |}].
Proof.
  split; [right; reflexivity |].
  apply (CreateSession_scoping (server_driver (mysql_server ["app"])) "mysql"
           (app_config "app") false []).
  right; reflexivity.
Defined.

(** ** The provisioner *)

(** C7: the only statement CreateDB executes is, on "postgres",
    CREATE DATABASE <name> WITH OWNER <user> (no IF NOT EXISTS in it) and,
    on "mysql", CREATE DATABASE IF NOT EXISTS <name>; it is executed once
    when CreateDB's own session opens, and nothing is executed otherwise. *)
Theorem CreateDB_statement (drv : Driver) dbConfig tr :
  exec_stmts (snd (CreateDB drv "postgres" dbConfig tr)) =
    exec_stmts tr ++
    match open_reply drv tr Postgresql (server_settings dbConfig) with
    | None => [("CREATE DATABASE " ++ Database dbConfig ++ " WITH OWNER "
                  ++ User dbConfig)%string]
    | Some _ => []
    end
  /\
  exec_stmts (snd (CreateDB drv "mysql" dbConfig tr)) =
    exec_stmts tr ++
    match open_reply drv tr Mysql (server_settings dbConfig) with
    | None => [("CREATE DATABASE IF NOT EXISTS " ++ Database dbConfig)%string]
    | Some _ => []
    end.
Proof.
  split.
  - rewrite (CreateDB_run drv "postgres" dbConfig tr Postgresql eq_refl).
    cbv zeta. destruct (open_reply drv tr Postgresql _);
      cbn [snd]; rewrite exec_stmts_app; reflexivity.
  - rewrite (CreateDB_run drv "mysql" dbConfig tr Mysql eq_refl).
    cbv zeta. destruct (open_reply drv tr Mysql _);
      cbn [snd]; rewrite exec_stmts_app; reflexivity.
Qed.

(** ** The existence probe *)

(** A session opened fresh and closed in the same block leaves the live
    sessions as they were. *)
Lemma live_open_close (tr evs : Trace) (s : Session) :
  ~ In s (opened tr) -> opened evs = [s] -> closed evs = [s] ->
  live (tr ++ evs) = live tr.
Proof.
  intros Hnew Ho Hc. unfold live. rewrite opened_app, Ho, filter_app.
  assert (Hs : Nat.eqb (close_count s (tr ++ evs)) 0 = false).
  { rewrite close_count_app. unfold close_count at 2. rewrite Hc. cbn.
    destruct (Nat.eq_dec s s) as [_ | Hne]; [| contradiction].
    apply Nat.eqb_neq. lia. }
  cbn [filter]. rewrite Hs, app_nil_r.
  apply filter_ext_in. intros x Hx.
  rewrite close_count_app. unfold close_count at 2. rewrite Hc. cbn.
  destruct (Nat.eq_dec s x) as [-> | _]; [contradiction |].
  now rewrite Nat.add_0_r.
Qed.

(** The events of one [DBExists] call. *)
Lemma DBExists_events (drv : Driver) dialect dbConfig tr :
  exists evs,
    snd (DBExists drv dialect dbConfig tr) = tr ++ evs /\
    (evs = [] \/
     (exists a msg, evs = [EvOpenFail a (server_settings dbConfig) msg]) \/
     (exists a sql,
        evs = [EvOpen a (server_settings dbConfig) (fresh tr);
               EvQueryRow (fresh tr) sql; EvLog (fresh tr);
               EvClose (fresh tr)])).
Proof.
  destruct (adapter_of dialect) as [a |] eqn:Ha.
  - rewrite (DBExists_run drv dialect dbConfig tr a Ha). cbv zeta.
    destruct (open_reply drv tr a _) as [msg |]; eexists; split;
      try reflexivity.
    + right; left. now exists a, msg.
    + right; right. now exists a, (exists_sql a (Database dbConfig)).
  - rewrite (DBExists_unknown drv dialect dbConfig tr Ha).
    exists []. split; [now rewrite app_nil_r | now left].
Qed.

(** C10: the session DBExists opens is closed, once, before DBExists
    returns, whatever the query did; when the open fails nothing is
    closed; the sessions that are live after the call are those that were
    live before it. *)
Theorem DBExists_closes_its_session (drv : Driver) dialect dbConfig tr :
  exists evs,
    snd (DBExists drv dialect dbConfig tr) = tr ++ evs /\
    closed evs = opened evs /\
    (forall s, In s (opened evs) -> close_count s evs = 1) /\
    (forall a settings msg,
        In (EvOpenFail a settings msg) evs -> closed evs = []) /\
    live (tr ++ evs) = live tr.
Proof.
  destruct (DBExists_events drv dialect dbConfig tr)
    as (evs & Hrun & [-> | [(a & msg & ->) | (a & sql & ->)]]);
    eexists; (split; [exact Hrun |]).
  - repeat split; try easy. now rewrite app_nil_r.
  - repeat split; try easy.
    unfold live. rewrite opened_app. cbn. rewrite app_nil_r.
    apply filter_ext. intros x. rewrite close_count_app. cbn. now rewrite Nat.add_0_r.
  - repeat split.
    + cbn. intros s [<- | []]. unfold close_count. cbn.
      destruct (Nat.eq_dec (fresh tr) (fresh tr)); [reflexivity | contradiction].
    + intros a' st' msg' Hin. cbn in Hin.
      destruct Hin as [H | [H | [H | [H | []]]]]; discriminate.
    + apply (live_open_close tr _ (fresh tr)); try reflexivity.
      apply fresh_not_opened.
Qed.




(** C5 (the spec's wording fails): on a PostgreSQL server without the
    database the query runs and finds no row, and the probe returns false
    together with an error, ErrNoSuchDatabase. *)
Lemma no_row_is_false_without_error_fails :
  ~ no_row_is_false_without_error (server_driver (postgres_server []))
      "postgres" (app_config "app").
Proof.
  intros H. specialize (H Postgresql 0 eq_refl eq_refl eq_refl).
  vm_compute in H. discriminate H.
Qed.

(** C5 (as amended): for a supported dialect and a non-empty database
    name, when DBExists's session opens and its catalog query runs and
    yields no row, DBExists returns false together with the sentinel error
    ErrNoSuchDatabase; when the query fails to run, it returns false with
    the driver's error wrapped as "failed to check db existence", which is
    a different error. *)
Theorem DBExists_no_row_vs_query_error (drv : Driver) dialect dbConfig tr a :
  adapter_of dialect = Some a ->
  open_reply drv tr a (server_settings dbConfig) = None ->
  Database dbConfig <> "" ->
  let reply :=
    query_reply drv (tr ++ [EvOpen a (server_settings dbConfig) (fresh tr)])
      (fresh tr) (exists_sql a (Database dbConfig)) in
  (reply = inr None ->
   fst (DBExists drv dialect dbConfig tr) = (false, Some ErrNoSuchDatabase)) /\
  (forall msg, reply = inl msg ->
   fst (DBExists drv dialect dbConfig tr) =
     (false, Some (Errorf "failed to check db existence" (DriverError msg)))) /\
  (forall msg,
     Errorf "failed to check db existence" (DriverError msg)
       <> ErrNoSuchDatabase).
Proof.
  intros Ha Hopen Hname reply. subst reply.
  rewrite (DBExists_run drv dialect dbConfig tr a Ha). cbv zeta.
  rewrite Hopen. repeat split.
  - intros ->. cbn [fst Scan].
    destruct (String.eqb_spec "" (Database dbConfig)) as [Heq | _];
      [now symmetry in Heq | reflexivity].
  - intros msg ->. reflexivity.
  - discriminate.
Qed.

Lemma DBExists_no_row_vs_query_error_witness :
  let drv := server_driver (postgres_server []) in
  let dbConfig := app_config "app" in
  adapter_of "postgres" = Some Postgresql /\
  open_reply drv [] Postgresql (server_settings dbConfig) = None /\
  Database dbConfig <> "" /\
  query_reply drv ([] ++ [EvOpen Postgresql (server_settings dbConfig) (fresh [])])
    (fresh []) (exists_sql Postgresql (Database dbConfig)) = inr None /\
  fst (DBExists drv "postgres" dbConfig []) = (false, Some ErrNoSuchDatabase).
Proof.
  intros drv dbConfig.
  split; [reflexivity |]. split; [reflexivity |]. split; [discriminate |].
  split; [reflexivity |].
  apply (DBExists_no_row_vs_query_error drv "postgres" dbConfig []
           Postgresql eq_refl eq_refl); [discriminate | reflexivity].
Defined.

(** ** The orchestrator *)

(** The errors [CreateDB] can return. *)
Lemma CreateDB_errors (drv : Driver) dialect dbConfig tr err :
  fst (CreateDB drv dialect dbConfig tr) = Some err ->
  err = ErrUnknownDialect \/
  (exists msg, err = Errorf "failed to connect" (DriverError msg)) \/
  (exists msg, err = DriverError msg).
Proof.
  destruct (adapter_of dialect) as [a |] eqn:Ha.
  - rewrite (CreateDB_run drv dialect dbConfig tr a Ha). cbv zeta.
    destruct (open_reply drv tr a _) as [msg |]; cbn [fst].
    + intros [= <-]. right; left. now exists msg.
    + destruct (exec_reply drv _ _ _) as [msg | res]; [| discriminate].
      intros [= <-]. right; right. now exists msg.
  - rewrite (CreateDB_unknown drv dialect dbConfig tr Ha). cbn.
    intros [= <-]. now left.
Qed.

(** C2 (the spec's wording fails): on a server whose catalog cannot be
    queried, ConnectDB does not return the probe's error; it goes on to
    CREATE DATABASE. *)
Lemma probe_error_is_surfaced_fails :
  ~ probe_error_is_surfaced
      (broken_catalog_driver (postgres_server ["app"]))
      "postgres" (app_config "app").
Proof.
  intros H. specialize (H 0 _ _ _ eq_refl eq_refl).
  vm_compute in H. destruct H as [H _]. discriminate H.
Qed.

(** C2 (as amended): when the bootstrap session opened and the probe
    failed with a query-execution error, ConnectDB drops that error and
    carries on as for an absent database: what follows the probe is a
    CreateDB call, which begins with an open attempt of its own, and the
    outcome of ConnectDB is the outcome of that call; the probe's error
    is not what ConnectDB returns. *)
Theorem ConnectDB_probe_error_provisions (drv : Driver) dialect dbConfig
  tr s1 tr1 cause tr2 :
  CreateSession drv dialect dbConfig true tr = (Ok s1, tr1) ->
  DBExists drv dialect dbConfig tr1 =
    ((false, Some (Errorf "failed to check db existence" cause)), tr2) ->
  ConnectDB drv dialect dbConfig tr =
    (match fst (CreateDB drv dialect dbConfig tr2) with
     | Some err => Err err
     | None => Ok s1
     end,
     snd (CreateDB drv dialect dbConfig tr2)) /\
  (exists ev evs,
      snd (ConnectDB drv dialect dbConfig tr) = tr2 ++ ev :: evs /\
      open_attempt_of ev =
        [{| cuHost := Host dbConfig; cuUser := User dbConfig;
            cuPassword := Password dbConfig; cuDatabase := "" |}]) /\
  (forall c,
      fst (ConnectDB drv dialect dbConfig tr) <>
        Err (Errorf "failed to check db existence" c)).
Proof.
  intros Hboot Hprobe.
  assert (Hrun : ConnectDB drv dialect dbConfig tr =
    (match fst (CreateDB drv dialect dbConfig tr2) with
     | Some err => Err err
     | None => Ok s1
     end,
     snd (CreateDB drv dialect dbConfig tr2))).
  { unfold ConnectDB, bind at 1. rewrite Hboot.
    unfold bind at 1. rewrite Hprobe. cbn [fst negb]. unfold bind.
    destruct (CreateDB drv dialect dbConfig tr2) as [[err |] tr3];
      reflexivity. }
  split; [exact Hrun |]. rewrite Hrun. cbn [fst snd]. split.
  - destruct (adapter_of dialect) as [a |] eqn:Ha.
    + rewrite (CreateDB_run drv dialect dbConfig tr2 a Ha). cbv zeta.
      destruct (open_reply drv tr2 a _) as [msg |]; cbn [snd];
        eexists; eexists; split; reflexivity.
    + rewrite (CreateSession_unknown drv dialect dbConfig true tr Ha) in Hboot.
      discriminate Hboot.
  - intros c.
    destruct (fst (CreateDB drv dialect dbConfig tr2)) as [err |] eqn:He;
      [| discriminate].
    destruct (CreateDB_errors drv dialect dbConfig tr2 err He)
      as [-> | [[msg ->] | [msg ->]]]; discriminate.
Qed.

Lemma ConnectDB_probe_error_provisions_witness :
  let drv := broken_catalog_driver (postgres_server ["app"]) in
  let dbConfig := app_config "app" in
  let tr1 := [EvOpen Postgresql (server_settings dbConfig) 0] in
  let tr2 :=
    tr1 ++ [EvOpen Postgresql (server_settings dbConfig) 1;
            EvQueryRow 1 (postgres_exists_sql "app"); EvLog 1; EvClose 1] in
  CreateSession drv "postgres" dbConfig true [] = (Ok 0, tr1) /\
  DBExists drv "postgres" dbConfig tr1 =
    ((false,
      Some (Errorf "failed to check db existence"
              (DriverError "permission denied for pg_database"))), tr2) /\
  (ConnectDB drv "postgres" dbConfig [] =
    (match fst (CreateDB drv "postgres" dbConfig tr2) with
     | Some err => Err err
     | None => Ok 0
     end,
     snd (CreateDB drv "postgres" dbConfig tr2)) /\
   (exists ev evs,
      snd (ConnectDB drv "postgres" dbConfig []) = tr2 ++ ev :: evs /\
      open_attempt_of ev =
        [{| cuHost := Host dbConfig; cuUser := User dbConfig;
            cuPassword := Password dbConfig; cuDatabase := "" |}]) /\
   (forall c,
      fst (ConnectDB drv "postgres" dbConfig []) <>
        Err (Errorf "failed to check db existence" c))).
Proof.
  intros drv dbConfig tr1 tr2.
  split; [reflexivity |]. split; [reflexivity |].
  exact (ConnectDB_probe_error_provisions drv "postgres" dbConfig [] 0 tr1
           (DriverError "permission denied for pg_database") tr2
           eq_refl eq_refl).
Defined.

(** C1 (the code departs from the claim): on a MySQL server without the
    database, ConnectDB creates it and returns success with the bootstrap
    session 0 itself: the session opened first, without a database name,
    and never closed.  No scoped session is opened. *)
Theorem ConnectDB_absent_returns_bootstrap :
  let run := ConnectDB (server_driver (mysql_server ["mysql"])) "mysql"
               (app_config "app") [] in
  fst run = Ok 0 /\
  settings_of 0 (snd run) =
    Some {| cuHost := "localhost"; cuUser := "lemmego";
            cuPassword := "secret"; cuDatabase := "" |} /\
  close_count 0 (snd run) = 0 /\
  exec_stmts (snd run) = ["CREATE DATABASE IF NOT EXISTS app"] /\
  map cuDatabase (open_attempts (snd run)) = [""; ""; ""].
Proof. vm_compute. repeat split. Qed.

(** C3 (the code departs from the claim): on a PostgreSQL server that
    refuses CREATE DATABASE, ConnectDB returns the provisioner's error and
    no session, and the bootstrap session 0 is left open: it was opened
    and never closed. *)
Theorem ConnectDB_provision_failure_leaks :
  let run := ConnectDB (server_driver (readonly_postgres_server []))
               "postgres" (app_config "app") [] in
  fst run = Err (DriverError "permission denied to create database") /\
  opened (snd run) = [0; 1; 2] /\
  closed (snd run) = [1; 2] /\
  live (snd run) = [0].
Proof. vm_compute. repeat split. Qed.

(** C4 (the code departs from the claim): on a PostgreSQL server whose
    catalog holds "mydb", the catalog query for "MyDb" does find the row
    "mydb", yet DBExists returns false with ErrNoSuchDatabase, because the
    scanned name is then compared with the requested one as it is.  The
    MySQL probe does not match across case either. *)
Theorem DBExists_postgres_case_mismatch :
  server_query (postgres_server ["mydb"]) (postgres_exists_sql "MyDb")
    = inr (Some "mydb") /\
  fst (DBExists (server_driver (postgres_server ["mydb"])) "postgres"
         (app_config "MyDb") []) = (false, Some ErrNoSuchDatabase) /\
  fst (DBExists (server_driver (mysql_server ["mydb"])) "mysql"
         (app_config "MyDb") []) = (false, Some ErrNoSuchDatabase) /\
  fst (DBExists (server_driver (postgres_server ["mydb"])) "postgres"
         (app_config "mydb") []) = (true, None).
Proof. vm_compute. repeat split. Qed.

(** ** The model server reads the probe's queries *)

Lemma strip_prefix_app (p s : string) : strip_prefix p (p ++ s)%string = Some s.
Proof.
  induction p as [| c p IH]; cbn; [reflexivity |].
  now rewrite Ascii.eqb_refl.
Qed.

Lemma length_append (s t : string) :
  String.length (s ++ t)%string = String.length s + String.length t.
Proof. induction s as [| c s IH]; cbn; [reflexivity | now rewrite IH]. Qed.

Lemma strip_suffix_app (suf s : string) :
  strip_suffix suf (s ++ suf)%string = Some s.
Proof.
  induction s as [| c s IH].
  - cbn [append]. destruct suf; cbn; now rewrite ?String.eqb_refl, ?Ascii.eqb_refl.
  - cbn [append]. unfold strip_suffix; fold strip_suffix.
    destruct (String.eqb_spec (String c (s ++ suf)) suf) as [Heq | _].
    + apply (f_equal String.length) in Heq. cbn in Heq.
      rewrite length_append in Heq. lia.
    + now rewrite IH.
Qed.

Lemma between_app (pre suf name : string) :
  between pre suf (pre ++ name ++ suf)%string = Some name.
Proof. unfold between. now rewrite strip_prefix_app, strip_suffix_app. Qed.

Lemma server_query_postgres (dbs : list string) (name : string) :
  server_query (postgres_server dbs) (postgres_exists_sql name) =
    inr (find (fun d => lower d =? lower name) dbs).
Proof.
  unfold server_query, postgres_exists_sql. cbn [engine postgres_server].
  now rewrite between_app.
Qed.

Lemma server_query_mysql (dbs : list string) (name : string) :
  server_query (mysql_server dbs) (mysql_exists_sql name) =
    inr (find (fun d => d =? name) dbs).
Proof.
  unfold server_query, mysql_exists_sql. cbn [engine mysql_server].
  now rewrite between_app.
Qed.

(** Whatever the driver, [DBExists] says true only when the name it
    scanned is the requested name, character for character. *)
Lemma DBExists_true_exact (drv : Driver) dialect dbConfig tr :
  fst (fst (DBExists drv dialect dbConfig tr)) = true ->
  exists a row,
    adapter_of dialect = Some a /\
    query_reply drv (tr ++ [EvOpen a (server_settings dbConfig) (fresh tr)])
      (fresh tr) (exists_sql a (Database dbConfig)) = inr row /\
    Scan row = Database dbConfig.
Proof.
  destruct (adapter_of dialect) as [a |] eqn:Ha.
  - rewrite (DBExists_run drv dialect dbConfig tr a Ha). cbv zeta.
    destruct (open_reply drv tr a _) as [msg |]; [discriminate |].
    destruct (query_reply drv _ _ _) as [msg | row] eqn:Hq; [discriminate |].
    cbn [fst].
    destruct (String.eqb_spec (Scan row) (Database dbConfig)) as [Heq | _];
      [| discriminate].
    intros _. now exists a, row.
  - rewrite (DBExists_unknown drv dialect dbConfig tr Ha). discriminate.
Qed.

(** On the model servers, for a non-empty name, either probe says true
    only when the catalog holds the name as requested: the PostgreSQL
    probe does not match across case any more than the MySQL one. *)
Lemma DBExists_postgres_true_in_catalog dbs dbConfig tr :
  Database dbConfig <> "" ->
  fst (fst (DBExists (server_driver (postgres_server dbs)) "postgres"
              dbConfig tr)) = true ->
  In (Database dbConfig) dbs.
Proof.
  intros Hname Htrue.
  destruct (DBExists_true_exact _ _ _ _ Htrue) as (a & row & Ha & Hq & Hscan).
  inversion Ha; subst a. cbn [query_reply server_driver exists_sql] in Hq.
  rewrite server_query_postgres in Hq. inversion Hq as [Hfind].
  destruct row as [v |]; cbn in Hscan; [| now symmetry in Hscan].
  subst v. now apply find_some in Hfind.
Qed.

Lemma DBExists_mysql_true_iff_in_catalog dbs dbConfig tr :
  Database dbConfig <> "" ->
  fst (fst (DBExists (server_driver (mysql_server dbs)) "mysql"
              dbConfig tr)) = true <->
  In (Database dbConfig) dbs.
Proof.
  intros Hname.
  rewrite (DBExists_run _ "mysql" dbConfig tr Mysql eq_refl). cbv zeta.
  cbn [open_reply query_reply server_driver exists_sql].
  rewrite server_query_mysql. cbn [server_open engine mysql_server
    cuDatabase server_settings Adapter_eqb negb fst]. cbn [String.eqb].
  destruct (find _ dbs) as [v |] eqn:Hfind; cbn [Scan].
  - apply find_some in Hfind. destruct Hfind as [Hin Heq].
    apply String.eqb_eq in Heq. subst v. rewrite String.eqb_refl. cbn.
    tauto.
  - destruct (String.eqb_spec "" (Database dbConfig)) as [Heq | _];
      [now symmetry in Heq |]. cbn. split; [discriminate |].
    intros Hin. pose proof (find_none _ _ Hfind _ Hin) as Hf. cbn in Hf.
    now rewrite String.eqb_refl in Hf.
Qed.

(** ** The two branches of the orchestrator, for every driver *)

(** A handle opened in a trace is below every handle opened after it. *)
Ltac below_fresh :=
  apply opened_below_fresh; unfold opened;
  repeat rewrite flat_map_app; cbn;
  repeat rewrite in_app_iff; cbn; tauto.

Ltac decide_handles :=
  repeat match goal with
         | |- context [Nat.eq_dec ?x ?y] =>
             destruct (Nat.eq_dec x y); try (exfalso; lia)
         | |- context [Nat.eqb ?x ?y] =>
             destruct (Nat.eqb_spec x y); try (exfalso; lia)
         end.

(** When the probe says true: the bootstrap session is closed once, and a
    session that is returned is a later one, opened with the database name
    and not closed; when the scoped open fails every session of the run
    has been closed. *)
Lemma ConnectDB_exists_branch (drv : Driver) dialect dbConfig tr a :
  adapter_of dialect = Some a ->
  open_reply drv tr a (server_settings dbConfig) = None ->
  let s1 := fresh tr in
  let run := ConnectDB drv dialect dbConfig tr in
  fst (fst (DBExists drv dialect dbConfig
              (tr ++ [EvOpen a (server_settings dbConfig) s1]))) = true ->
  exists evs,
    snd run = tr ++ evs /\
    close_count s1 evs = 1 /\
    (forall s2, fst run = Ok s2 ->
       s2 <> s1 /\
       settings_of s2 evs = Some (session_settings dbConfig false) /\
       close_count s2 evs = 0) /\
    (forall err, fst run = Err err ->
       forall s, In s (opened evs) -> close_count s evs = 1).
Proof.
  intros Ha Hopen s1 run Hprobe. subst run.
  rewrite (ConnectDB_run drv dialect dbConfig tr a Ha). cbv zeta.
  rewrite Hopen. fold s1. rewrite Hprobe. clear Hopen.
  set (tr1 := tr ++ [EvOpen a (server_settings dbConfig) s1]) in *.
  assert (H1 : s1 < fresh tr1) by (subst tr1 s1; below_fresh).
  rewrite (DBExists_run drv dialect dbConfig tr1 a Ha) in Hprobe |- *.
  cbv zeta in Hprobe |- *.
  destruct (open_reply drv tr1 a (server_settings dbConfig)) as [msg |];
    [discriminate Hprobe |].
  clear Hprobe. cbn [snd]. set (sp := fresh tr1) in *.
  rewrite (CreateSession_run drv dialect dbConfig false _ a Ha). cbv zeta.
  subst tr1. flatten_trace.
  match goal with
  | |- context [open_reply drv ?t a ?st] =>
      destruct (open_reply drv t a st) as [msg2 |]
  end; cbn [fst snd]; flatten_trace; eexists; (split; [reflexivity |]).
  - clearbody s1 sp. unfold close_count; cbn. decide_handles.
    repeat split; try discriminate.
    intros err _ s [<- | [<- | []]]; decide_handles; reflexivity.
  - set (s2 := fresh _).
    assert (H2 : s1 < s2) by (subst s2 s1; below_fresh).
    assert (H3 : sp < s2) by (subst s2 sp; below_fresh).
    clearbody s1 sp s2. unfold close_count; cbn. decide_handles.
    split; [reflexivity |]. split; [| discriminate].
    intros s2' [= <-]. decide_handles. repeat split. lia.
Qed.

(** When the probe says false, for whatever reason: the outcome is that of
    CreateDB, with the bootstrap session returned on success; that session
    was opened without a database name and is not closed, whether CreateDB
    succeeds or fails; and no open attempt of the run names the database. *)
Lemma ConnectDB_absent_branch (drv : Driver) dialect dbConfig tr a :
  adapter_of dialect = Some a ->
  open_reply drv tr a (server_settings dbConfig) = None ->
  let s1 := fresh tr in
  let run := ConnectDB drv dialect dbConfig tr in
  let probe :=
    DBExists drv dialect dbConfig
      (tr ++ [EvOpen a (server_settings dbConfig) s1]) in
  fst (fst probe) = false ->
  exists evs,
    snd run = tr ++ evs /\
    fst run = match fst (CreateDB drv dialect dbConfig (snd probe)) with
              | Some err => Err err
              | None => Ok s1
              end /\
    settings_of s1 evs = Some (server_settings dbConfig) /\
    close_count s1 evs = 0 /\
    Forall (fun settings => cuDatabase settings = "") (open_attempts evs).
Proof.
  intros Ha Hopen s1 run probe Hprobe. subst run probe.
  rewrite (ConnectDB_run drv dialect dbConfig tr a Ha). cbv zeta.
  rewrite Hopen. fold s1. rewrite Hprobe. clear Hopen Hprobe. cbn [fst snd].
  set (tr1 := tr ++ [EvOpen a (server_settings dbConfig) s1]).
  assert (H1 : s1 < fresh tr1) by (subst tr1 s1; below_fresh).
  rewrite (DBExists_run drv dialect dbConfig tr1 a Ha). cbv zeta.
  destruct (open_reply drv tr1 a (server_settings dbConfig)) as [msg |];
    cbn [snd].
  - rewrite (CreateDB_run drv dialect dbConfig _ a Ha). cbv zeta.
    subst tr1. flatten_trace.
    match goal with
    | |- context [open_reply drv ?t a ?st] =>
        destruct (open_reply drv t a st) as [msg2 |]
    end; cbn [fst snd]; flatten_trace; eexists; (split; [reflexivity |]).
    + clearbody s1. unfold close_count; cbn. decide_handles.
      repeat split; repeat constructor.
    + match goal with
      | |- context [EvExec (fresh ?t) _] => set (sc := fresh t) in *
      end.
      assert (H2 : s1 < sc) by (subst sc s1; below_fresh).
      clearbody s1 sc. unfold close_count; cbn. decide_handles.
      repeat split; repeat constructor.
  - set (sp := fresh tr1) in *.
    rewrite (CreateDB_run drv dialect dbConfig _ a Ha). cbv zeta.
    subst tr1. flatten_trace.
    match goal with
    | |- context [open_reply drv ?t a ?st] =>
        destruct (open_reply drv t a st) as [msg2 |]
    end; cbn [fst snd]; flatten_trace; eexists; (split; [reflexivity |]).
    + clearbody s1 sp. unfold close_count; cbn. decide_handles.
      repeat split; repeat constructor.
    + match goal with
      | |- context [EvExec (fresh ?t) _] => set (sc := fresh t) in *
      end.
      assert (H2 : s1 < sc) by (subst sc s1; below_fresh).
      clearbody s1 sp sc. unfold close_count; cbn. decide_handles.
      repeat split; repeat constructor.
Qed.

(** * Further results on the provisioning code *)

(** ** CreateDB *)

(** The events of one [CreateDB] call. *)
Lemma CreateDB_events (drv : Driver) dialect dbConfig tr :
  exists evs,
    snd (CreateDB drv dialect dbConfig tr) = tr ++ evs /\
    (evs = [] \/
     (exists a msg, evs = [EvOpenFail a (server_settings dbConfig) msg]) \/
     (exists a,
        evs = [EvOpen a (server_settings dbConfig) (fresh tr);
               EvExec (fresh tr) (create_sql a dbConfig); EvLog (fresh tr);
               EvClose (fresh tr)])).
Proof.
  destruct (adapter_of dialect) as [a |] eqn:Ha.
  - rewrite (CreateDB_run drv dialect dbConfig tr a Ha). cbv zeta.
    destruct (open_reply drv tr a _) as [msg |]; eexists; split;
      try reflexivity.
    + right; left. now exists a, msg.
    + right; right. now exists a.
  - rewrite (CreateDB_unknown drv dialect dbConfig tr Ha).
    exists []. split; [now rewrite app_nil_r | now left].
Qed.

(** X1: the session CreateDB opens is closed, once, before CreateDB
    returns, whether the statement succeeded or failed; when the open fails
    nothing is closed and nothing is executed; the live sessions after the
    call are those live before it. *)
Theorem CreateDB_closes_its_session (drv : Driver) dialect dbConfig tr :
  exists evs,
    snd (CreateDB drv dialect dbConfig tr) = tr ++ evs /\
    closed evs = opened evs /\
    (forall s, In s (opened evs) -> close_count s evs = 1) /\
    (forall a settings msg,
        In (EvOpenFail a settings msg) evs ->
        closed evs = [] /\ exec_stmts evs = []) /\
    live (tr ++ evs) = live tr.
Proof.
  destruct (CreateDB_events drv dialect dbConfig tr)
    as (evs & Hrun & [-> | [(a & msg & ->) | (a & ->)]]);
    eexists; (split; [exact Hrun |]).
  - repeat split; try easy. now rewrite app_nil_r.
  - repeat split; try easy.
    unfold live. rewrite opened_app. cbn. rewrite app_nil_r.
    apply filter_ext. intros x. rewrite close_count_app. cbn.
    now rewrite Nat.add_0_r.
  - split; [reflexivity |]. split; [| split].
    + cbn. intros s [<- | []]. unfold close_count. cbn.
      destruct (Nat.eq_dec (fresh tr) (fresh tr));
        [reflexivity | contradiction].
    + intros a' st' msg' Hin. cbn in Hin.
      destruct Hin as [H | [H | [H | [H | []]]]]; discriminate.
    + apply (live_open_close tr _ (fresh tr)); try reflexivity.
      apply fresh_not_opened.
Qed.

(** ** DBExists *)

(** X2: DBExists returns a nil error exactly when it returns true: every
    false answer (connection failure, query failure, no such database,
    unknown dialect) carries an error, and true never does. *)
Theorem DBExists_true_iff_no_error (drv : Driver) dialect dbConfig tr :
  fst (fst (DBExists drv dialect dbConfig tr)) = true <->
  snd (fst (DBExists drv dialect dbConfig tr)) = None.
Proof.
  destruct (adapter_of dialect) as [a |] eqn:Ha.
  - rewrite (DBExists_run drv dialect dbConfig tr a Ha). cbv zeta.
    destruct (open_reply drv tr a _) as [msg |]; cbn [fst snd];
      [split; discriminate |].
    destruct (query_reply drv _ _ _) as [msg | row]; cbn [fst snd];
      [split; discriminate |].
    destruct (Scan row =? Database dbConfig); cbn [fst snd];
      split; (reflexivity || discriminate).
  - rewrite (DBExists_unknown drv dialect dbConfig tr Ha). cbn.
    split; discriminate.
Qed.

(** X3: with an empty database name, a catalog query that runs and yields
    no row makes DBExists answer true with no error: the scanned name
    stays empty and so equals the requested one. *)
Theorem DBExists_empty_name_no_row (drv : Driver) dialect dbConfig tr a :
  adapter_of dialect = Some a ->
  Database dbConfig = "" ->
  open_reply drv tr a (server_settings dbConfig) = None ->
  query_reply drv (tr ++ [EvOpen a (server_settings dbConfig) (fresh tr)])
    (fresh tr) (exists_sql a "") = inr None ->
  fst (DBExists drv dialect dbConfig tr) = (true, None).
Proof.
  intros Ha Hname Hopen Hq.
  rewrite (DBExists_run drv dialect dbConfig tr a Ha). cbv zeta.
  rewrite Hopen, Hname, Hq. reflexivity.
Qed.

Lemma DBExists_empty_name_no_row_witness :
  let drv := server_driver (mysql_server ["app"]) in
  adapter_of "mysql" = Some Mysql /\
  Database (app_config "") = "" /\
  open_reply drv [] Mysql (server_settings (app_config "")) = None /\
  query_reply drv
    ([] ++ [EvOpen Mysql (server_settings (app_config "")) (fresh [])])
    (fresh []) (exists_sql Mysql "") = inr None /\
  fst (DBExists drv "mysql" (app_config "") []) = (true, None).
Proof.
  intros drv. repeat (split; [reflexivity |]).
  apply (DBExists_empty_name_no_row drv "mysql" (app_config "") [] Mysql);
    reflexivity.
Defined.

(** ** The port *)

Lemma same_but_port_settings c1 c2 :
  same_but_port c1 c2 ->
  server_settings c1 = server_settings c2 /\
  (forall ignoreDb, session_settings c1 ignoreDb = session_settings c2 ignoreDb) /\
  (forall a, create_sql a c1 = create_sql a c2).
Proof.
  intros (Hh & Hu & Hp & Hd).
  unfold session_settings, server_settings, create_sql,
    postgres_create_sql, mysql_create_sql.
  rewrite Hh, Hu, Hp, Hd. repeat split.
Qed.

(** X4: the Port of the configuration is never used: two configurations
    that agree on host, user, password and database give the same result
    and the same driver calls in ConnectDB, DBExists, CreateDB and
    CreateSession, whatever their ports. *)
Theorem Port_is_ignored (drv : Driver) dialect c1 c2 ignoreDb tr :
  same_but_port c1 c2 ->
  ConnectDB drv dialect c1 tr = ConnectDB drv dialect c2 tr /\
  DBExists drv dialect c1 tr = DBExists drv dialect c2 tr /\
  CreateDB drv dialect c1 tr = CreateDB drv dialect c2 tr /\
  CreateSession drv dialect c1 ignoreDb tr =
    CreateSession drv dialect c2 ignoreDb tr.
Proof.
  intros Hsame.
  destruct (same_but_port_settings c1 c2 Hsame) as (Hst & Hss & Hsql).
  destruct Hsame as (_ & _ & _ & Hd).
  assert (Hsess : forall b t,
    CreateSession drv dialect c1 b t = CreateSession drv dialect c2 b t).
  { intros b t. destruct (adapter_of dialect) as [a |] eqn:Ha.
    - rewrite !(CreateSession_run drv dialect _ b t a Ha). now rewrite Hss.
    - now rewrite !(CreateSession_unknown drv dialect _ b t Ha). }
  assert (Hex : forall t,
    DBExists drv dialect c1 t = DBExists drv dialect c2 t).
  { intros t. destruct (adapter_of dialect) as [a |] eqn:Ha.
    - rewrite !(DBExists_run drv dialect _ t a Ha). now rewrite Hst, Hd.
    - now rewrite !(DBExists_unknown drv dialect _ t Ha). }
  assert (Hcr : forall t,
    CreateDB drv dialect c1 t = CreateDB drv dialect c2 t).
  { intros t. destruct (adapter_of dialect) as [a |] eqn:Ha.
    - rewrite !(CreateDB_run drv dialect _ t a Ha). now rewrite Hst, Hsql.
    - now rewrite !(CreateDB_unknown drv dialect _ t Ha). }
  repeat split; auto.
  destruct (adapter_of dialect) as [a |] eqn:Ha.
  - rewrite !(ConnectDB_run drv dialect _ tr a Ha). cbv zeta.
    rewrite Hst. destruct (open_reply drv tr a _); [reflexivity |].
    rewrite Hex. destruct (fst (fst (DBExists drv dialect c2 _))).
    + apply Hsess.
    + now rewrite Hcr.
  - now rewrite !(ConnectDB_unknown drv dialect _ tr Ha).
Qed.

Lemma Port_is_ignored_witness :
  let drv := server_driver (postgres_server ["app"]) in
  let c1 := app_config "app" in
  let c2 := {| Host := "localhost"; Port := 6543%Z; User := "lemmego";
               Password := "secret"; Database := "app" |} in
  same_but_port c1 c2 /\
  (ConnectDB drv "postgres" c1 [] = ConnectDB drv "postgres" c2 [] /\
   DBExists drv "postgres" c1 [] = DBExists drv "postgres" c2 [] /\
   CreateDB drv "postgres" c1 [] = CreateDB drv "postgres" c2 [] /\
   CreateSession drv "postgres" c1 false [] =
     CreateSession drv "postgres" c2 false []).
Proof.
  intros drv c1 c2.
  assert (H : same_but_port c1 c2) by (repeat split).
  split; [exact H |].
  exact (Port_is_ignored drv "postgres" c1 c2 false [] H).
Defined.

(** ** Every run of ConnectDB *)

(** Case analysis on the driver's replies along a run. *)
Ltac reply_cases drv :=
  repeat (cbv zeta; cbn [fst snd];
          match goal with
          | |- context [match open_reply drv ?t ?a ?st with _ => _ end] =>
              destruct (open_reply drv t a st) as [?msg |]
          | |- context [match query_reply drv ?t ?s ?q with _ => _ end] =>
              destruct (query_reply drv t s q) as [?msg | ?row]
          | |- context [match exec_reply drv ?t ?s ?q with _ => _ end] =>
              destruct (exec_reply drv t s q) as [?msg | ?res]
          | |- context [if String.eqb ?x ?y then _ else _] =>
              destruct (String.eqb x y)
          end).

(** Unfold a run of [ConnectDB] on a known dialect into its cases. *)
Ltac connect_cases drv dialect dbConfig tr a Ha :=
  rewrite (ConnectDB_run drv dialect dbConfig tr a Ha); cbv zeta;
  rewrite ?(DBExists_run drv dialect dbConfig _ a Ha); cbv zeta;
  repeat rewrite (CreateDB_run drv dialect dbConfig _ a Ha); cbv zeta;
  repeat rewrite (CreateSession_run drv dialect dbConfig _ _ a Ha);
  reply_cases drv; flatten_trace.

(** Name the handles of a run, oldest first, each above the ones before
    it and above every handle of the starting trace. *)
Ltac name_handles tr :=
  let s1 := fresh "s1" in
  set (s1 := fresh tr) in *;
  assert (forall x, In x (opened tr) -> x < s1)
    by (intros ? ?; unfold s1; now apply opened_below_fresh);
  repeat match goal with
         | |- context [fresh (tr ++ ?l)] =>
             lazymatch l with
             | context [fresh _] => fail
             | _ =>
                 let s := fresh "s" in
                 set (s := fresh (tr ++ l)) in *;
                 assert (s1 < s) by (unfold s, s1; below_fresh);
                 repeat match goal with
                        | h := fresh (tr ++ _) |- _ =>
                            lazymatch goal with
                            | _ : h < s |- _ => fail
                            | _ =>
                                assert (h < s)
                                  by (unfold s, h, s1; below_fresh)
                            end
                        end
             end
         end.

(** X6: a session ConnectDB returns was opened by this very call, with
    the configured host, user and password; it is none of the sessions
    opened before the call, and it has not been closed. *)
Theorem ConnectDB_returned_session (drv : Driver) dialect dbConfig tr s :
  fst (ConnectDB drv dialect dbConfig tr) = Ok s ->
  exists evs,
    snd (ConnectDB drv dialect dbConfig tr) = tr ++ evs /\
    In s (opened evs) /\
    ~ In s (opened tr) /\
    close_count s evs = 0 /\
    exists settings,
      settings_of s evs = Some settings /\
      cuHost settings = Host dbConfig /\
      cuUser settings = User dbConfig /\
      cuPassword settings = Password dbConfig.
Proof.
  destruct (adapter_of dialect) as [a |] eqn:Ha.
  - connect_cases drv dialect dbConfig tr a Ha; try discriminate.
    all: intros [= <-]; eexists; (split; [reflexivity |]).
    all: name_handles tr.
    all: repeat match goal with h := fresh _ |- _ => clearbody h end.
    all: unfold close_count; cbn; decide_handles.
    all: repeat split; try tauto;
      try (intros Hin;
           match goal with
           | Hold : forall x, In x (opened _) -> _ |- _ =>
               apply Hold in Hin; lia
           end).
    all: eexists; repeat split; reflexivity.
  - rewrite (ConnectDB_unknown drv dialect dbConfig tr Ha). discriminate.
Qed.

Lemma ConnectDB_returned_session_witness :
  let drv := server_driver (postgres_server ["app"]) in
  let tr := [EvOpen Postgresql (server_settings (app_config "old")) 0] in
  fst (ConnectDB drv "postgres" (app_config "app") tr) = Ok 3 /\
  (exists evs,
      snd (ConnectDB drv "postgres" (app_config "app") tr) = tr ++ evs /\
      In 3 (opened evs) /\
      ~ In 3 (opened tr) /\
      close_count 3 evs = 0 /\
      (exists settings,
          settings_of 3 evs = Some settings /\
          cuHost settings = "localhost" /\
          cuUser settings = "lemmego" /\
          cuPassword settings = "secret")).
Proof.
  intros drv tr. split; [reflexivity |].
  apply (ConnectDB_returned_session drv "postgres" (app_config "app") tr 3).
  reflexivity.
Defined.

(** X5: an error ConnectDB returns is ErrUnknownDialect, a wrapped
    connection failure, or the driver's own error from CREATE DATABASE; it
    is never ErrNoSuchDatabase and never a "failed to check db existence"
    error: what the probe reports as an error stays inside ConnectDB. *)
Theorem ConnectDB_errors (drv : Driver) dialect dbConfig tr err :
  fst (ConnectDB drv dialect dbConfig tr) = Err err ->
  (err = ErrUnknownDialect \/
   (exists msg, err = Errorf "failed to connect" (DriverError msg)) \/
   (exists msg, err = DriverError msg)) /\
  err <> ErrNoSuchDatabase /\
  (forall cause, err <> Errorf "failed to check db existence" cause).
Proof.
  intros Herr.
  assert (Hkind : err = ErrUnknownDialect \/
    (exists msg, err = Errorf "failed to connect" (DriverError msg)) \/
    (exists msg, err = DriverError msg)).
  { revert Herr. destruct (adapter_of dialect) as [a |] eqn:Ha.
    - connect_cases drv dialect dbConfig tr a Ha; try discriminate;
        intros [= <-]; eauto.
    - rewrite (ConnectDB_unknown drv dialect dbConfig tr Ha).
      intros [= <-]. now left. }
  split; [exact Hkind |].
  destruct Hkind as [-> | [[msg ->] | [msg ->]]]; split;
    try discriminate; intros cause; discriminate.
Qed.

Lemma ConnectDB_errors_witness :
  let drv := server_driver (readonly_postgres_server []) in
  let err := DriverError "permission denied to create database" in
  fst (ConnectDB drv "postgres" (app_config "app") []) = Err err /\
  ((err = ErrUnknownDialect \/
    (exists msg, err = Errorf "failed to connect" (DriverError msg)) \/
    (exists msg, err = DriverError msg)) /\
   err <> ErrNoSuchDatabase /\
   (forall cause, err <> Errorf "failed to check db existence" cause)).
Proof.
  intros drv err. split; [reflexivity |].
  apply (ConnectDB_errors drv "postgres" (app_config "app") [] err).
  reflexivity.
Defined.

(** X7: when the bootstrap session opens and the probe answers true,
    ConnectDB executes no statement at all (no CREATE DATABASE), closes the
    bootstrap session exactly once, and makes one more open attempt, with
    the database name; the session it returns, if any, is that last one
    and is open. *)
Theorem ConnectDB_existing_database (drv : Driver) dialect dbConfig tr a :
  adapter_of dialect = Some a ->
  open_reply drv tr a (server_settings dbConfig) = None ->
  fst (fst (DBExists drv dialect dbConfig
              (tr ++ [EvOpen a (server_settings dbConfig) (fresh tr)])))
    = true ->
  exists evs,
    snd (ConnectDB drv dialect dbConfig tr) = tr ++ evs /\
    exec_stmts evs = [] /\
    close_count (fresh tr) evs = 1 /\
    map cuDatabase (open_attempts evs) = [""; ""; Database dbConfig] /\
    (forall s2, fst (ConnectDB drv dialect dbConfig tr) = Ok s2 ->
       settings_of s2 evs =
         Some {| cuHost := Host dbConfig; cuUser := User dbConfig;
                 cuPassword := Password dbConfig;
                 cuDatabase := Database dbConfig |} /\
       close_count s2 evs = 0).
Proof.
  intros Ha Hopen Hprobe.
  rewrite (ConnectDB_run drv dialect dbConfig tr a Ha). cbv zeta.
  rewrite Hopen, Hprobe. clear Hopen.
  rewrite (DBExists_run drv dialect dbConfig _ a Ha) in Hprobe |- *.
  cbv zeta in Hprobe |- *.
  destruct (open_reply drv _ a (server_settings dbConfig)) as [msg |];
    [discriminate Hprobe |]. clear Hprobe. cbn [snd].
  rewrite (CreateSession_run drv dialect dbConfig false _ a Ha). cbv zeta.
  reply_cases drv; flatten_trace; eexists; (split; [reflexivity |]).
  all: name_handles tr.
  all: repeat match goal with h := fresh _ |- _ => clearbody h end.
  all: unfold close_count; cbn; decide_handles.
  all: do 3 (split; [reflexivity |]).
  all: intros ret Hret; try discriminate Hret.
  injection Hret as <-. decide_handles. split; reflexivity.
Qed.

Lemma ConnectDB_existing_database_witness :
  let drv := server_driver (mysql_server ["app"]) in
  let dbConfig := app_config "app" in
  adapter_of "mysql" = Some Mysql /\
  open_reply drv [] Mysql (server_settings dbConfig) = None /\
  fst (fst (DBExists drv "mysql" dbConfig
              ([] ++ [EvOpen Mysql (server_settings dbConfig) (fresh [])])))
    = true /\
  (exists evs,
      snd (ConnectDB drv "mysql" dbConfig []) = [] ++ evs /\
      exec_stmts evs = [] /\
      close_count (fresh []) evs = 1 /\
      map cuDatabase (open_attempts evs) = [""; ""; Database dbConfig] /\
      (forall s2, fst (ConnectDB drv "mysql" dbConfig []) = Ok s2 ->
         settings_of s2 evs =
           Some {| cuHost := Host dbConfig; cuUser := User dbConfig;
                   cuPassword := Password dbConfig;
                   cuDatabase := Database dbConfig |} /\
         close_count s2 evs = 0)).
Proof.
  intros drv dbConfig. repeat (split; [reflexivity |]).
  apply (ConnectDB_existing_database drv "mysql" dbConfig [] Mysql);
    reflexivity.
Defined.

(** X8: one ConnectDB call has no retry in it: it makes at most three
    open attempts, runs at most one catalog query and executes at most one
    statement; on an unknown dialect it makes none of these. *)
Theorem ConnectDB_call_bounds (drv : Driver) dialect dbConfig tr :
  exists evs,
    snd (ConnectDB drv dialect dbConfig tr) = tr ++ evs /\
    length (open_attempts evs) <= 3 /\
    length (queried_on evs) <= 1 /\
    length (exec_stmts evs) <= 1 /\
    (adapter_of dialect = None -> evs = []).
Proof.
  destruct (adapter_of dialect) as [a |] eqn:Ha.
  - connect_cases drv dialect dbConfig tr a Ha;
      eexists; (split; [reflexivity |]); cbn;
      repeat split; try lia; discriminate.
  - rewrite (ConnectDB_unknown drv dialect dbConfig tr Ha).
    exists []. cbn. rewrite app_nil_r. repeat split; lia.
Qed.

(** * The field validator (package vee) *)

(** ** The error map *)

Lemma Vee_index_store_same (m : Vee.ErrorMap) k v :
  Vee.index (Vee.store m k v) k = v.
Proof.
  unfold Vee.index. induction m as [| [k' v'] m IH]; cbn.
  - now rewrite String.eqb_refl.
  - destruct (String.eqb_spec k' k) as [-> | Hne]; cbn.
    + now rewrite String.eqb_refl.
    + destruct (String.eqb_spec k' k); [contradiction | exact IH].
Qed.

Lemma Vee_index_store_other (m : Vee.ErrorMap) k v g :
  g <> k -> Vee.index (Vee.store m k v) g = Vee.index m g.
Proof.
  intros Hg. unfold Vee.index. induction m as [| [k' v'] m IH]; cbn.
  - destruct (String.eqb_spec k g); [now subst | reflexivity].
  - destruct (String.eqb_spec k' k) as [-> | Hne]; cbn.
    + destruct (String.eqb_spec k g); [now subst | reflexivity].
    + destruct (String.eqb_spec k' g); [reflexivity | exact IH].
Qed.

Lemma Vee_store_keys (m : Vee.ErrorMap) k v :
  map fst (Vee.store m k v) =
    if existsb (String.eqb k) (map fst m) then map fst m
    else map fst m ++ [k].
Proof.
  induction m as [| [k' v'] m IH]; cbn; [reflexivity |].
  rewrite (String.eqb_sym k k').
  destruct (String.eqb_spec k' k) as [-> | Hne]; cbn; [reflexivity |].
  rewrite IH. now destruct (existsb (String.eqb k) (map fst m)).
Qed.

Lemma Vee_store_wf (m : Vee.ErrorMap) k v :
  Vee.wf m -> Vee.wf (Vee.store m k v).
Proof.
  unfold Vee.wf. intros Hwf. rewrite Vee_store_keys.
  destruct (existsb (String.eqb k) (map fst m)) eqn:Hex; [exact Hwf |].
  apply NoDup_app; [exact Hwf | repeat constructor; intros [] |].
  intros x Hx [Hk | []]. subst x.
  assert (existsb (String.eqb k) (map fst m) = true)
    by (apply existsb_exists; exists k; split;
        [exact Hx | apply String.eqb_refl]).
  congruence.
Qed.

Lemma Vee_store_lengths (m : Vee.ErrorMap) k v :
  list_sum (map (fun entry => length (snd entry)) (Vee.store m k v))
    + length (Vee.index m k) =
  list_sum (map (fun entry => length (snd entry)) m) + length v.
Proof.
  unfold Vee.index, list_sum. induction m as [| [k' v'] m IH]; cbn; [lia |].
  destruct (String.eqb_spec k' k) as [-> | Hne]; cbn; lia.
Qed.

Lemma Vee_store_message_count (m : Vee.ErrorMap) k msg :
  list_sum (map (fun entry => length (snd entry))
              (Vee.store m k (Vee.index m k ++ [msg]))) =
  S (list_sum (map (fun entry => length (snd entry)) m)).
Proof.
  pose proof (Vee_store_lengths m k (Vee.index m k ++ [msg])) as H.
  rewrite length_app in H. cbn in H. lia.
Qed.

Lemma Vee_AddError_facts (v : Vee.Validator) field message :
  let v' := Vee.AddError v field message in
  Vee.index (Vee.Errors v') field =
    Vee.index (Vee.Errors v) field ++ [message] /\
  (forall other, other <> field ->
     Vee.index (Vee.Errors v') other = Vee.index (Vee.Errors v) other) /\
  Vee.IsValid v' = false /\
  Vee.message_count v' = S (Vee.message_count v) /\
  (Vee.wf (Vee.Errors v) -> Vee.wf (Vee.Errors v')).
Proof.
  cbv zeta. unfold Vee.AddError. cbn [Vee.Errors]. repeat split.
  - apply Vee_index_store_same.
  - intros other Hne. now apply Vee_index_store_other.
  - unfold Vee.IsValid, Vee.len. cbn [Vee.Errors].
    destruct (Vee.Errors v) as [| [k' v'] m]; cbn; [reflexivity |].
    now destruct (k' =? field).
  - unfold Vee.message_count. cbn [Vee.Errors].
    apply Vee_store_message_count.
  - apply Vee_store_wf.
Qed.

(** X9: AddError appends the message after the messages the field already
    has and leaves every other field alone; the validator is invalid
    afterwards, holds one message more, and its map still has each key
    once. *)
Theorem AddError_appends (v : Vee.Validator) field message :
  let v' := Vee.AddError v field message in
  Vee.index (Vee.Errors v') field =
    Vee.index (Vee.Errors v) field ++ [message] /\
  (forall other, other <> field ->
     Vee.index (Vee.Errors v') other = Vee.index (Vee.Errors v) other) /\
  Vee.IsValid v' = false /\
  Vee.message_count v' = S (Vee.message_count v) /\
  (Vee.wf (Vee.Errors v) -> Vee.wf (Vee.Errors v')).
Proof. exact (Vee_AddError_facts v field message). Qed.

(** ** What every check does to the validator *)

Lemma Vee_range_check_outcome bad field message chars v :
  Vee.range_check bad field message chars v =
    if forallb (fun char => negb (bad char)) chars
    then (true, v) else (false, Vee.AddError v field message).
Proof.
  induction chars as [| char rest IH]; cbn; [reflexivity |].
  destruct (bad char); cbn; [reflexivity | exact IH].
Qed.

Lemma Vee_Distinct_loop_outcome {A} (dec : forall x y : A, {x = y} + {x <> y})
  field values seen v :
  Vee.Distinct_loop dec field values seen v = (true, v) \/
  Vee.Distinct_loop dec field values seen v =
    (false, Vee.AddError v field "This field must contain only unique values").
Proof.
  revert seen. induction values as [| x rest IH]; intros seen; cbn.
  - now left.
  - destruct (in_dec dec x seen); [now right | apply IH].
Qed.

Lemma Vee_call_outcome (u : Vee.Unicode) (r : Vee.rule) (v : Vee.Validator) :
  (fst (Vee.call u r v) = true /\ snd (Vee.call u r v) = v) \/
  (fst (Vee.call u r v) = false /\
   exists message,
     snd (Vee.call u r v) = Vee.AddError v (Vee.field_of r) message).
Proof.
  destruct r; cbn [Vee.call Vee.field_of].
  - destruct value; cbn; try destruct (s =? ""); cbn; eauto.
  - unfold Vee.Min. destruct (value <? min)%Z; cbn; eauto.
  - unfold Vee.Max. destruct (value >? max)%Z; cbn; eauto.
  - unfold Vee.Between.
    destruct ((value <? min) || (value >? max))%Z; cbn; eauto.
  - unfold Vee.Alpha. rewrite Vee_range_check_outcome.
    destruct (forallb _ _); cbn; eauto.
  - unfold Vee.Numeric. rewrite Vee_range_check_outcome.
    destruct (forallb _ _); cbn; eauto.
  - unfold Vee.AlphaNumeric. rewrite Vee_range_check_outcome.
    destruct (forallb _ _); cbn; eauto.
  - unfold Vee.Ascii. rewrite Vee_range_check_outcome.
    destruct (forallb _ _); cbn; eauto.
  - unfold Vee.In. destruct (Vee.In_loop value validValues); cbn; eauto.
  - unfold Vee.StartsWith. destruct (Vee.HasPrefix value prefix); cbn; eauto.
  - unfold Vee.EndsWith. destruct (Vee.HasSuffix value suffix); cbn; eauto.
  - destruct value; cbn; eauto.
    + destruct ((Vee.ToLower u s =? "true") || (Vee.ToLower u s =? "false"));
        cbn; eauto.
    + destruct ((n =? 0) || (n =? 1))%Z; cbn; eauto.
  - destruct value; cbn; eauto.
    + destruct (s =? ""); cbn; eauto.
    + destruct xs; cbn; eauto.
    + destruct m; cbn; eauto.
  - unfold Vee.Distinct.
    destruct (Vee_Distinct_loop_outcome Z.eq_dec field values [] v) as [H | H];
      rewrite H; cbn; eauto.
  - unfold Vee.Contains.
    destruct (Vee.Contains_string value substring); cbn; eauto.
  - unfold Vee.Email. destruct (Vee.MatchString u _ value); cbn; eauto.
  - unfold Vee.AlphaDash. destruct (Vee.MatchString u _ value); cbn; eauto.
  - unfold Vee.ULID. destruct (Vee.MatchString u _ value); cbn; eauto.
  - unfold Vee.HexColor. destruct (Vee.MatchString u _ value); cbn; eauto.
Qed.

(** X10: a check that passes leaves the validator exactly as it was; a
    check that fails records exactly one message, under the field it was
    called with.  This holds for each of Required, Min, Max, Between,
    Email, Alpha, Numeric, AlphaNumeric, In, Boolean, StartsWith, EndsWith,
    Contains, AlphaDash, Ascii, ULID, Distinct, Filled and HexColor. *)
Theorem check_reports_once (u : Vee.Unicode) (r : Vee.rule) (v : Vee.Validator) :
  (fst (Vee.call u r v) = true /\ snd (Vee.call u r v) = v) \/
  (fst (Vee.call u r v) = false /\
   exists message,
     snd (Vee.call u r v) = Vee.AddError v (Vee.field_of r) message).
Proof. exact (Vee_call_outcome u r v). Qed.

(** ** Sequences of checks *)

Lemma Vee_call_valid (u : Vee.Unicode) r v :
  Vee.IsValid (snd (Vee.call u r v)) = Vee.IsValid v && fst (Vee.call u r v).
Proof.
  destruct (Vee_call_outcome u r v) as [[-> ->] | [-> [msg ->]]].
  - now rewrite andb_true_r.
  - rewrite andb_false_r.
    now destruct (Vee_AddError_facts v (Vee.field_of r) msg) as (_ & _ & H & _).
Qed.

Lemma Vee_call_message_count (u : Vee.Unicode) r v :
  Vee.message_count (snd (Vee.call u r v)) =
    Vee.message_count v + (if fst (Vee.call u r v) then 0 else 1).
Proof.
  destruct (Vee_call_outcome u r v) as [[-> ->] | [-> [msg ->]]].
  - lia.
  - destruct (Vee_AddError_facts v (Vee.field_of r) msg) as (_ & _ & _ & H & _).
    rewrite H. lia.
Qed.

(** X11: after any sequence of checks the validator is valid exactly when
    it was valid before and every check of the sequence returned true, and
    it holds one message more per check that returned false.  So a fresh
    validator's IsValid is the conjunction of the results, and an invalid
    validator never becomes valid again. *)
Theorem IsValid_iff_all_passed (u : Vee.Unicode) (rs : list Vee.rule)
  (v : Vee.Validator) :
  Vee.IsValid (snd (Vee.calls u rs v)) =
    Vee.IsValid v && forallb (fun ok => ok) (fst (Vee.calls u rs v)) /\
  Vee.message_count (snd (Vee.calls u rs v)) =
    Vee.message_count v + count_occ bool_dec (fst (Vee.calls u rs v)) false /\
  Vee.IsValid (snd (Vee.calls u rs Vee.NewValidator)) =
    forallb (fun ok => ok) (fst (Vee.calls u rs Vee.NewValidator)).
Proof.
  assert (Hgen : forall w,
    Vee.IsValid (snd (Vee.calls u rs w)) =
      Vee.IsValid w && forallb (fun ok => ok) (fst (Vee.calls u rs w)) /\
    Vee.message_count (snd (Vee.calls u rs w)) =
      Vee.message_count w + count_occ bool_dec (fst (Vee.calls u rs w)) false).
  { induction rs as [| r rest IH]; intros w; cbn.
    - rewrite andb_true_r. split; [reflexivity | lia].
    - pose proof (Vee_call_valid u r w) as Hv.
      pose proof (Vee_call_message_count u r w) as Hc.
      destruct (Vee.call u r w) as [ok w1]. cbn [fst snd] in Hv, Hc.
      destruct (IH w1) as [IHv IHc].
      destruct (Vee.calls u rest w1) as [oks w2]. cbn [fst snd] in *.
      rewrite IHv, Hv, IHc, Hc. split.
      + destruct ok, (Vee.IsValid w); reflexivity.
      + destruct ok; cbn; lia. }
  destruct (Hgen v) as [Hv Hc]. repeat split; try assumption.
  now destruct (Hgen Vee.NewValidator) as [-> _].
Qed.

(** X12: checks on other fields never touch a field's messages: after a
    sequence of checks none of which was called with field [g], the
    messages under [g] are what they were. *)
Theorem other_fields_untouched (u : Vee.Unicode) (rs : list Vee.rule)
  (v : Vee.Validator) (g : string) :
  Forall (fun r => Vee.field_of r <> g) rs ->
  Vee.index (Vee.Errors (snd (Vee.calls u rs v))) g =
    Vee.index (Vee.Errors v) g.
Proof.
  intros Hall. revert v. induction Hall as [| r rest Hr _ IH]; intros v; cbn.
  - reflexivity.
  - assert (H1 : Vee.index (Vee.Errors (snd (Vee.call u r v))) g =
                 Vee.index (Vee.Errors v) g).
    { destruct (Vee_call_outcome u r v) as [[_ ->] | [_ [msg ->]]];
        [reflexivity |].
      destruct (Vee_AddError_facts v (Vee.field_of r) msg) as (_ & H & _).
      apply H. congruence. }
    destruct (Vee.call u r v) as [ok v1]. cbn [snd] in H1.
    specialize (IH v1). destruct (Vee.calls u rest v1) as [oks v2].
    cbn [snd] in *. congruence.
Qed.

Lemma other_fields_untouched_witness :
  let rs := [Vee.CallRequired "name" (Vee.VString "");
             Vee.CallMin "age" 12 18] in
  let v := Vee.AddError Vee.NewValidator "email" "taken" in
  Forall (fun r => Vee.field_of r <> "email") rs /\
  Vee.index (Vee.Errors (snd (Vee.calls Vee.ascii_unicode rs v))) "email" =
    Vee.index (Vee.Errors v) "email".
Proof.
  intros rs v.
  assert (H : Forall (fun r => Vee.field_of r <> "email") rs)
    by (repeat constructor; discriminate).
  split; [exact H |].
  exact (other_fields_untouched Vee.ascii_unicode rs v "email" H).
Defined.

(** ** The numeric checks *)

(** X13: Between passes exactly when the value lies in [min, max], which
    is exactly when Min and Max both pass; with min above max no value
    passes. *)
Theorem Between_is_Min_and_Max field (value min max : Z) (v : Vee.Validator) :
  fst (Vee.Between field value min max v) =
    fst (Vee.Min field value min v) && fst (Vee.Max field value max v) /\
  (fst (Vee.Between field value min max v) = true <->
   (min <= value <= max)%Z) /\
  ((max < min)%Z -> fst (Vee.Between field value min max v) = false).
Proof.
  unfold Vee.Between, Vee.Min, Vee.Max.
  destruct (Z.ltb_spec value min), (Z.gtb_spec value max); cbn;
    repeat split; try reflexivity; try discriminate; try lia.
Qed.

(** ** Membership and uniqueness *)

Lemma Vee_In_loop_spec value validValues :
  Vee.In_loop value validValues = true <-> List.In value validValues.
Proof.
  induction validValues as [| x rest IH]; cbn.
  - split; [discriminate | intros []].
  - destruct (String.eqb_spec value x) as [-> | Hne].
    + split; [now left | reflexivity].
    + rewrite IH. split; [now right | intros [Heq | H]; congruence].
Qed.

(** X14: In passes exactly when the value is one of the valid values,
    compared as they are; otherwise it records one message that lists the
    valid values joined by ", ".  With no valid values nothing passes. *)
Theorem In_passes_iff_member field value validValues (v : Vee.Validator) :
  (fst (Vee.In field value validValues v) = true <->
   List.In value validValues) /\
  (~ List.In value validValues ->
   snd (Vee.In field value validValues v) =
     Vee.AddError v field
       ("This field must be one of the following: "
          ++ String.concat ", " validValues)%string) /\
  fst (Vee.In field value [] v) = false.
Proof.
  unfold Vee.In. pose proof (Vee_In_loop_spec value validValues) as Hspec.
  destruct (Vee.In_loop value validValues); cbn.
  - split; [tauto |]. split; [| reflexivity].
    intros Hnot. exfalso. apply Hnot. now apply Hspec.
  - split; [| split; reflexivity].
    split; [discriminate |]. intros Hin. apply Hspec in Hin. discriminate.
Qed.



(** ** Required and Filled *)

(** X16: Required fails only on the nil interface and on the empty
    string; Filled fails on these and also on an empty []interface{} and
    an empty map[string]interface{}.  So whatever passes Filled passes
    Required, and the values that pass Required but not Filled are exactly
    the empty slice and the empty map. *)
Theorem Filled_stricter_than_Required field (value : Vee.value)
  (v : Vee.Validator) :
  (fst (Vee.Required field value v) = false <->
   value = Vee.VNil \/ value = Vee.VString "") /\
  (fst (Vee.Filled field value v) = true ->
   fst (Vee.Required field value v) = true) /\
  (fst (Vee.Required field value v) = true /\
   fst (Vee.Filled field value v) = false <->
   value = Vee.VSlice [] \/ value = Vee.VMap []).
Proof.
  destruct value as [| s | b | n | xs | m | t]; cbn;
    try destruct (String.eqb_spec s ""); try destruct xs; try destruct m;
    subst; cbn; repeat split; intros; try tauto; try discriminate;
    try (intuition discriminate); auto.
  all: try (destruct H as [H | H]; inversion H; try contradiction).
  all: intuition congruence.
Qed.

(** ** The checks that range over the runes of a string *)

Lemma Vee_range_check_passes bad field message chars v :
  fst (Vee.range_check bad field message chars v) = true <->
  Forall (fun char => bad char = false) chars.
Proof.
  rewrite Vee_range_check_outcome.
  destruct (forallb _ chars) eqn:Hall; cbn.
  - split; [intros _ | reflexivity]. rewrite forallb_forall in Hall.
    apply Forall_forall. intros x Hx. specialize (Hall x Hx).
    now destruct (bad x).
  - split; [discriminate |]. intros HF. rewrite Forall_forall in HF.
    assert (forallb (fun char => negb (bad char)) chars = true).
    { apply forallb_forall. intros x Hx. now rewrite (HF x Hx). }
    congruence.
Qed.

(** X17: Alpha, Numeric, AlphaNumeric and Ascii pass exactly when every
    rune of the value is, in turn, a letter, a digit, a letter or a digit,
    at most MaxASCII (127); a value with no rune passes all four. *)
Theorem range_checks_pass_iff (u : Vee.Unicode) field value (v : Vee.Validator) :
  (fst (Vee.Alpha u field value v) = true <->
   Forall (fun c => Vee.IsLetter u c = true) (Vee.runes u value)) /\
  (fst (Vee.Numeric u field value v) = true <->
   Forall (fun c => Vee.IsDigit u c = true) (Vee.runes u value)) /\
  (fst (Vee.AlphaNumeric u field value v) = true <->
   Forall (fun c => Vee.IsLetter u c = true \/ Vee.IsDigit u c = true)
     (Vee.runes u value)) /\
  (fst (Vee.Ascii u field value v) = true <->
   Forall (fun c => (c <= 127)%Z) (Vee.runes u value)) /\
  (Vee.runes u value = [] ->
   fst (Vee.Alpha u field value v) = true /\
   fst (Vee.Numeric u field value v) = true /\
   fst (Vee.AlphaNumeric u field value v) = true /\
   fst (Vee.Ascii u field value v) = true).
Proof.
  unfold Vee.Alpha, Vee.Numeric, Vee.AlphaNumeric, Vee.Ascii.
  rewrite !Vee_range_check_passes. repeat split;
    try (intros H; eapply Forall_impl; [| exact H]; cbn; intros c Hc).
  - now destruct (Vee.IsLetter u c).
  - now rewrite Hc.
  - now destruct (Vee.IsDigit u c).
  - now rewrite Hc.
  - destruct (Vee.IsLetter u c), (Vee.IsDigit u c); auto; discriminate.
  - destruct Hc as [-> | ->]; [reflexivity | apply andb_false_r].
  - unfold Vee.MaxASCII in Hc. destruct (Z.gtb_spec c 127); [discriminate | lia].
  - unfold Vee.MaxASCII. destruct (Z.gtb_spec c 127); [lia | reflexivity].
  - rewrite H. constructor.
  - rewrite H. constructor.
  - rewrite H. constructor.
  - rewrite H. constructor.
Qed.

(** X18: a value that passes Alpha, or that passes Numeric, passes
    AlphaNumeric. *)
Theorem Alpha_or_Numeric_then_AlphaNumeric (u : Vee.Unicode) field value
  (v : Vee.Validator) :
  fst (Vee.Alpha u field value v) = true \/
  fst (Vee.Numeric u field value v) = true ->
  fst (Vee.AlphaNumeric u field value v) = true.
Proof.
  unfold Vee.Alpha, Vee.Numeric, Vee.AlphaNumeric.
  rewrite !Vee_range_check_passes.
  intros [H | H]; eapply Forall_impl; try exact H; cbn; intros c Hc.
  - destruct (Vee.IsLetter u c); [reflexivity | discriminate].
  - destruct (Vee.IsDigit u c); [apply andb_false_r | discriminate].
Qed.

Lemma Alpha_or_Numeric_then_AlphaNumeric_witness :
  (fst (Vee.Alpha Vee.ascii_unicode "code" "abc" Vee.NewValidator) = true \/
   fst (Vee.Numeric Vee.ascii_unicode "code" "abc" Vee.NewValidator) = true) /\
  fst (Vee.AlphaNumeric Vee.ascii_unicode "code" "abc" Vee.NewValidator) = true.
Proof.
  assert (H : fst (Vee.Alpha Vee.ascii_unicode "code" "abc" Vee.NewValidator)
              = true \/
              fst (Vee.Numeric Vee.ascii_unicode "code" "abc" Vee.NewValidator)
              = true) by (left; reflexivity).
  split; [exact H |].
  exact (Alpha_or_Numeric_then_AlphaNumeric Vee.ascii_unicode "code" "abc"
           Vee.NewValidator H).
Defined.

(** ** Prefix and suffix *)

Lemma substring_head (p r : string) :
  substring 0 (String.length p) (p ++ r)%string = p.
Proof.
  induction p as [| c p IH]; cbn.
  - now destruct r.
  - now rewrite IH.
Qed.

Lemma substring_all (s : string) : substring 0 (String.length s) s = s.
Proof. induction s as [| c s IH]; cbn; [reflexivity | now rewrite IH]. Qed.

Lemma substring_tail (f t : string) :
  substring (String.length f) (String.length t) (f ++ t)%string = t.
Proof.
  induction f as [| c f IH]; cbn; [apply substring_all | exact IH].
Qed.

(** A string is its first [n] bytes followed by the rest. *)
Lemma substring_split (s : string) (n : nat) :
  n <= String.length s ->
  s = (substring 0 n s ++ substring n (String.length s - n) s)%string.
Proof.
  revert n. induction s as [| c s IH]; intros n Hn; cbn in Hn.
  - assert (n = 0) by lia. subst. reflexivity.
  - destruct n as [| n]; cbn.
    + now rewrite substring_all.
    + f_equal. apply IH. lia.
Qed.

Lemma Vee_HasPrefix_spec (s prefix : string) :
  Vee.HasPrefix s prefix = true <-> exists rest, s = (prefix ++ rest)%string.
Proof.
  unfold Vee.HasPrefix. rewrite andb_true_iff, Nat.leb_le, String.eqb_eq.
  split.
  - intros [Hlen Hsub]. eexists.
    rewrite <- Hsub at 1. now apply substring_split.
  - intros [rest ->]. rewrite length_append, substring_head. split; [lia | easy].
Qed.

Lemma Vee_HasSuffix_spec (s suffix : string) :
  Vee.HasSuffix s suffix = true <-> exists front, s = (front ++ suffix)%string.
Proof.
  unfold Vee.HasSuffix. rewrite andb_true_iff, Nat.leb_le, String.eqb_eq.
  split.
  - intros [Hlen Hsub].
    exists (substring 0 (String.length s - String.length suffix) s).
    pose proof (substring_split s (String.length s - String.length suffix))
      as Hsplit.
    replace (String.length s - (String.length s - String.length suffix))
      with (String.length suffix) in Hsplit by lia.
    rewrite Hsub in Hsplit. apply Hsplit. lia.
  - intros [front ->]. rewrite length_append.
    replace (String.length front + String.length suffix
               - String.length suffix) with (String.length front) by lia.
    rewrite substring_tail. split; [lia | easy].
Qed.

(** X19: StartsWith passes exactly when the value is the prefix followed
    by something (possibly nothing), EndsWith exactly when it is something
    followed by the suffix; so an empty prefix or suffix always passes and
    a value passes both checks against itself. *)
Theorem StartsWith_EndsWith_pass_iff field (value part : string)
  (v : Vee.Validator) :
  (fst (Vee.StartsWith field value part v) = true <->
   exists rest, value = (part ++ rest)%string) /\
  (fst (Vee.EndsWith field value part v) = true <->
   exists front, value = (front ++ part)%string) /\
  fst (Vee.StartsWith field value "" v) = true /\
  fst (Vee.EndsWith field value "" v) = true /\
  fst (Vee.StartsWith field value value v) = true /\
  fst (Vee.EndsWith field value value v) = true.
Proof.
  assert (Hs : forall p,
    fst (Vee.StartsWith field value p v) = true <->
    exists rest, value = (p ++ rest)%string).
  { intros p. unfold Vee.StartsWith. rewrite <- Vee_HasPrefix_spec.
    destruct (Vee.HasPrefix value p); cbn; split; congruence. }
  assert (He : forall p,
    fst (Vee.EndsWith field value p v) = true <->
    exists front, value = (front ++ p)%string).
  { intros p. unfold Vee.EndsWith. rewrite <- Vee_HasSuffix_spec.
    destruct (Vee.HasSuffix value p); cbn; split; congruence. }
  split; [apply Hs |]. split; [apply He |]. repeat split.
  - apply Hs. now exists value.
  - apply He. exists value. clear. induction value; cbn; congruence.
  - apply Hs. exists "". clear. induction value; cbn; congruence.
  - apply He. now exists "".
Qed.

(** * Local storage (package fsys) *)


(** X21: Write closes the file it created, once, whether the write
    succeeded or failed, and returns the write's error; when the file
    cannot be created nothing is written or closed and the create error
    is returned. *)
Theorem Write_closes_its_file (os : Fsys.OS) (ls : Fsys.LocalStorage)
  (path contents : string) (tr : Fsys.Trace) :
  exists evs,
    snd (Fsys.Write os ls path contents tr) = tr ++ evs /\
    Fsys.closed evs = Fsys.opened evs /\
    length (Fsys.opened evs) <= 1 /\
    (forall err,
        Fsys.create_reply os tr (Fsys.fullPath ls path) = Some err ->
        fst (Fsys.Write os ls path contents tr) = Some err /\
        evs = [Fsys.EvCreateFail (Fsys.fullPath ls path) err]) /\
    (Fsys.create_reply os tr (Fsys.fullPath ls path) = None ->
     let f := Fsys.next_file tr in
     evs = [Fsys.EvCreate (Fsys.fullPath ls path) f;
            Fsys.EvWrite f contents; Fsys.EvClose f] /\
     fst (Fsys.Write os ls path contents tr) =
       Fsys.write_reply os
         (tr ++ [Fsys.EvCreate (Fsys.fullPath ls path) f]) f contents).
Proof.
  unfold Fsys.Write, Fsys.os_Create, Fsys.file_Write, Fsys.file_Close.
  destruct (Fsys.create_reply os tr _) as [e1 |] eqn:Hcreate.
  - eexists. split; [reflexivity |]. cbn.
    split; [reflexivity |]. split; [lia |].
    split; [intros err [= <-]; now split | discriminate].
  - flatten_trace. eexists. split; [reflexivity |]. cbn.
    split; [reflexivity |]. split; [lia |].
    split; [discriminate | intros _; now split].
Qed.

(** X22: Read, Write, Delete, Exists, Rename and Copy hand the operating
    system only paths of the form RootDirectory + "/" + p, for a path p
    they were given; the given path is not cleaned or checked. *)
Theorem storage_paths_under_root (os : Fsys.OS) (ls : Fsys.LocalStorage)
  (op : Fsys.operation) (tr : Fsys.Trace) :
  exists evs,
    Fsys.run os ls op tr = tr ++ evs /\
    Forall (fun q =>
              exists p, In p (Fsys.given_paths op) /\
                        q = (Fsys.RootDirectory ls ++ "/" ++ p)%string)
      (Fsys.paths evs).
Proof.
  destruct op; cbn [Fsys.run Fsys.given_paths];
    unfold Fsys.Read, Fsys.Write, Fsys.Delete, Fsys.Exists, Fsys.Rename,
      Fsys.Copy, Fsys.os_Open, Fsys.os_Create, Fsys.io_Copy,
      Fsys.file_Write, Fsys.file_Close;
    repeat match goal with
           | |- context [match ?r with Some _ => _ | None => _ end] =>
               destruct r
           | |- context [if ?b then _ else _] => destruct b
           end;
    cbn [snd]; flatten_trace; eexists; (split; [reflexivity |]);
    cbn; repeat constructor; eexists; (split; [| reflexivity]);
    cbn; tauto.
Qed.

(** * Matching regular expressions *)

Module RegexpFacts.

Import Regexp.

Lemma nullable_spec (r : regex) : nullable r = true <-> Lang r [].
Proof.
  induction r as [| | ranges | r1 IH1 r2 IH2 | r1 IH1 r2 IH2 | r IH]; cbn.
  - split; [discriminate | intros H; inversion H].
  - split; [constructor | reflexivity].
  - split; [discriminate | intros H; inversion H].
  - rewrite andb_true_iff, IH1, IH2. split.
    + intros [H1 H2]. exact (LangCat _ _ [] [] H1 H2).
    + intros H. inversion H as [| | ? ? s1 s2 H1 H2 | | | |]; subst.
      match goal with
      | Heq : _ ++ _ = [] |- _ =>
          apply app_eq_nil in Heq; destruct Heq as [-> ->]
      end. now split.
  - rewrite orb_true_iff, IH1, IH2. split.
    + intros [H | H]; [now apply LangAltL | now apply LangAltR].
    + intros H. inversion H; subst; tauto.
  - split; [constructor | reflexivity].
Qed.

(** A non-empty member of [r*] starts with a non-empty member of [r]. *)
Lemma Lang_star_cons (r : regex) (c : Z) (s : list Z) :
  Lang (Star r) (c :: s) ->
  exists s1 s2, s = s1 ++ s2 /\ Lang r (c :: s1) /\ Lang (Star r) s2.
Proof.
  intros H. remember (Star r) as r' eqn:Hr. remember (c :: s) as w eqn:Hw.
  revert r c s Hr Hw.
  induction H as [| | | | | | r0 s1 s2 H1 _ H2 IH2]; intros r' c' s' Hr Hw;
    try discriminate.
  injection Hr as ->. destruct s1 as [| c1 s1]; cbn in Hw.
  - exact (IH2 r' c' s' eq_refl Hw).
  - injection Hw as -> <-. now exists s1, s2.
Qed.

Lemma deriv_spec (r : regex) (c : Z) (s : list Z) :
  Lang (deriv c r) s <-> Lang r (c :: s).
Proof.
  revert s.
  induction r as [| | ranges | r1 IH1 r2 IH2 | r1 IH1 r2 IH2 | r IH];
    intros s; cbn.
  - split; intros H; inversion H.
  - split; intros H; inversion H.
  - destruct (in_class ranges c) eqn:Hc; split; intros H; inversion H; subst.
    + now constructor.
    + constructor.
    + congruence.
  - assert (Hcat : Lang (Cat (deriv c r1) r2) s <->
                   exists s1 s2, s = s1 ++ s2 /\ Lang r1 (c :: s1) /\ Lang r2 s2).
    { split.
      - intros H. inversion H as [| | ? ? s1 s2 H1 H2 | | | |]; subst.
        exists s1, s2. rewrite <- IH1. now repeat split.
      - intros (s1 & s2 & -> & H1 & H2). constructor; [now apply IH1 | exact H2]. }
    assert (Hgoal : Lang (Cat r1 r2) (c :: s) <->
                    (exists s1 s2, s = s1 ++ s2 /\ Lang r1 (c :: s1) /\ Lang r2 s2)
                    \/ (Lang r1 [] /\ Lang r2 (c :: s))).
    { split.
      - intros H. inversion H as [| | ? ? s1 s2 H1 H2 | | | |]; subst.
        match goal with Heq : _ ++ _ = _ :: _ |- _ => rename Heq into Heq' end.
        destruct s1 as [| c1 s1]; cbn in Heq'.
        + right. subst. now split.
        + injection Heq' as -> <-. left. now exists s1, s2.
      - intros [(s1 & s2 & -> & H1 & H2) | [H1 H2]].
        + exact (LangCat _ _ (c :: s1) s2 H1 H2).
        + exact (LangCat _ _ [] (c :: s) H1 H2). }
    rewrite Hgoal. destruct (nullable r1) eqn:Hn.
    + apply nullable_spec in Hn. split.
      * intros H. inversion H; subst.
        -- left. now apply Hcat.
        -- right. split; [exact Hn | now apply IH2].
      * intros [H | [_ H]].
        -- apply LangAltL. now apply Hcat.
        -- apply LangAltR. now apply IH2.
    + rewrite Hcat. split; [now left |]. intros [H | [H _]]; [exact H |].
      apply nullable_spec in H. congruence.
  - split; intros H; inversion H; subst.
    + apply LangAltL. now apply IH1.
    + apply LangAltR. now apply IH2.
    + apply LangAltL. now apply IH1.
    + apply LangAltR. now apply IH2.
  - split.
    + intros H. inversion H as [| | ? ? s1 s2 H1 H2 | | | |]; subst.
      apply IH in H1. exact (LangStarCons r (c :: s1) s2 H1 H2).
    + intros H. apply Lang_star_cons in H.
      destruct H as (s1 & s2 & -> & H1 & H2).
      constructor; [now apply IH | exact H2].
Qed.

(** The matcher decides the language. *)
Lemma matches_spec (r : regex) (s : list Z) :
  matches r s = true <-> Lang r s.
Proof.
  revert r. induction s as [| c s IH]; intros r; cbn.
  - apply nullable_spec.
  - rewrite IH. apply deriv_spec.
Qed.

(** ** Sequences of runes from one class *)

Lemma Lang_cat (r1 r2 : regex) (s : list Z) :
  Lang (Cat r1 r2) s <->
  exists s1 s2, s = s1 ++ s2 /\ Lang r1 s1 /\ Lang r2 s2.
Proof.
  split.
  - intros H. inversion H; subst. eauto.
  - intros (s1 & s2 & -> & H1 & H2). now constructor.
Qed.

Lemma Lang_class (ranges : list (Z * Z)) (s : list Z) :
  Lang (Class ranges) s <-> exists c, s = [c] /\ in_class ranges c = true.
Proof.
  split.
  - intros H. inversion H; subst. eauto.
  - intros (c & -> & H). now constructor.
Qed.

Lemma Lang_times_class (ranges : list (Z * Z)) (n : nat) (s : list Z) :
  Lang (times n (Class ranges)) s <->
  length s = n /\ Forall (fun c => in_class ranges c = true) s.
Proof.
  revert s. induction n as [| n IH]; intros s; cbn.
  - split.
    + intros H. inversion H. split; [reflexivity | constructor].
    + intros [Hlen _]. destruct s; [constructor | discriminate].
  - rewrite Lang_cat. split.
    + intros (s1 & s2 & -> & H1 & H2). apply Lang_class in H1.
      destruct H1 as (c & -> & Hc). apply IH in H2. destruct H2 as [<- HF].
      split; [reflexivity | now constructor].
    + intros [Hlen HF]. destruct s as [| c s]; [discriminate |].
      inversion HF; subst. exists [c], s. split; [reflexivity |].
      split; [now constructor |]. apply IH. split; [now injection Hlen | easy].
Qed.

Lemma Lang_upto_class (ranges : list (Z * Z)) (n : nat) (s : list Z) :
  Lang (upto n (Class ranges)) s <->
  length s <= n /\ Forall (fun c => in_class ranges c = true) s.
Proof.
  revert s. induction n as [| n IH]; intros s; cbn.
  - split.
    + intros H. inversion H. split; [reflexivity | constructor].
    + intros [Hlen _]. destruct s; [constructor | cbn in Hlen; lia].
  - split.
    + intros H. inversion H as [| | | ? ? ? H1 | ? ? ? H1 | |]; subst.
      * inversion H1. split; [cbn; lia | constructor].
      * apply Lang_cat in H1. destruct H1 as (s1 & s2 & -> & H1 & H2).
        apply Lang_class in H1. destruct H1 as (c & -> & Hc).
        apply IH in H2. destruct H2 as [Hlen HF].
        split; [cbn; lia | now constructor].
    + intros [Hlen HF]. destruct s as [| c s].
      * apply LangAltL. constructor.
      * inversion HF as [| ? ? Hc HF']; subst. apply LangAltR.
        apply (LangCat _ _ [c] s); [now constructor |].
        apply IH. split; [cbn in Hlen; lia | exact HF'].
Qed.

Lemma Lang_from_to_class (ranges : list (Z * Z)) (n m : nat) (s : list Z) :
  n <= m ->
  Lang (from_to n m (Class ranges)) s <->
  n <= length s <= m /\ Forall (fun c => in_class ranges c = true) s.
Proof.
  intros Hnm. unfold from_to. rewrite Lang_cat. split.
  - intros (s1 & s2 & -> & H1 & H2).
    apply Lang_times_class in H1. apply Lang_upto_class in H2.
    destruct H1 as [<- HF1], H2 as [Hlen HF2].
    rewrite length_app. split; [lia | now apply Forall_app].
  - intros [Hlen HF]. exists (firstn n s), (skipn n s).
    split; [now rewrite firstn_skipn |]. split.
    + apply Lang_times_class. split.
      * rewrite length_firstn. lia.
      * rewrite <- (firstn_skipn n s) in HF. now apply Forall_app in HF.
    + apply Lang_upto_class. split.
      * rewrite length_skipn. lia.
      * rewrite <- (firstn_skipn n s) in HF. now apply Forall_app in HF.
Qed.

Lemma Lang_star_class (ranges : list (Z * Z)) (s : list Z) :
  Lang (Star (Class ranges)) s <->
  Forall (fun c => in_class ranges c = true) s.
Proof.
  split.
  - intros H. remember (Star (Class ranges)) as r eqn:Hr.
    induction H as [| | | | | | r0 s1 s2 H1 _ H2 IH2]; try discriminate.
    + constructor.
    + injection Hr as ->. apply Lang_class in H1.
      destruct H1 as (c & -> & Hc). constructor; [exact Hc | now apply IH2].
  - intros HF. induction HF as [| c s Hc _ IH]; [constructor |].
    exact (LangStarCons _ [c] s (LangClass _ _ Hc) IH).
Qed.

Lemma Lang_plus_class (ranges : list (Z * Z)) (s : list Z) :
  Lang (plus (Class ranges)) s <->
  s <> [] /\ Forall (fun c => in_class ranges c = true) s.
Proof.
  unfold plus. rewrite Lang_cat. split.
  - intros (s1 & s2 & -> & H1 & H2). apply Lang_class in H1.
    destruct H1 as (c & -> & Hc). apply Lang_star_class in H2.
    split; [discriminate | now constructor].
  - intros [Hne HF]. destruct s as [| c s]; [contradiction |].
    inversion HF; subst. exists [c], s. split; [reflexivity |].
    split; [now constructor | now apply Lang_star_class].
Qed.

End RegexpFacts.

(** ** The checks that match a pattern *)

Lemma Vee_pattern_check_passes (m : bool) field message (v : Vee.Validator) :
  fst ((if negb m then Vee.fail_with field message else Vee.pass) v) = true
  <-> m = true.
Proof. destruct m; cbn; split; congruence. Qed.

Lemma Vee_MatchString_spec (u : Vee.Unicode) r value :
  Vee.MatchString u r value = true <-> Regexp.Lang r (Vee.runes u value).
Proof. apply RegexpFacts.matches_spec. Qed.

Lemma Lang_alt_iff (r1 r2 : Regexp.regex) (s : list Z) :
  Regexp.Lang (Regexp.Alt r1 r2) s <-> Regexp.Lang r1 s \/ Regexp.Lang r2 s.
Proof.
  split.
  - intros H. inversion H; subst; tauto.
  - intros [H | H]; [now apply Regexp.LangAltL | now apply Regexp.LangAltR].
Qed.

Lemma in_class_one (ch : ascii) (c : Z) :
  Regexp.in_class [Regexp.one ch] c = true <-> c = Regexp.code ch.
Proof.
  unfold Regexp.in_class, Regexp.one. cbn [existsb fst snd].
  rewrite orb_false_r, andb_true_iff, !Z.leb_le. lia.
Qed.

(** Membership in a class of ranges, as inequalities. *)
Ltac class_bounds :=
  unfold Regexp.in_class; cbn -[Regexp.code]; rewrite ?orb_false_r;
  repeat match goal with
         | |- context [Regexp.code ?ch] =>
             let n := eval vm_compute in (Regexp.code ch) in
             change (Regexp.code ch) with n
         end;
  repeat rewrite orb_true_iff; repeat rewrite andb_true_iff;
  repeat rewrite Z.leb_le; lia.

(** X23: ULID passes exactly when the value has 26 runes, each a digit
    or an upper-case ASCII letter other than I, L, O and U. *)
Theorem ULID_passes_iff (u : Vee.Unicode) field value (v : Vee.Validator) :
  (fst (Vee.ULID u field value v) = true <->
   length (Vee.runes u value) = 26 /\
   Forall (fun c => Regexp.in_class Vee.ulid_class c = true)
     (Vee.runes u value)) /\
  (forall c,
     Regexp.in_class Vee.ulid_class c = true <->
     (48 <= c <= 57 \/
      (65 <= c <= 90 /\ c <> 73 /\ c <> 76 /\ c <> 79 /\ c <> 85))%Z).
Proof.
  split.
  - unfold Vee.ULID. rewrite Vee_pattern_check_passes, Vee_MatchString_spec.
    apply RegexpFacts.Lang_times_class.
  - intros c. class_bounds.
Qed.

(** X24: HexColor passes exactly when the value is "#" followed by
    three or by six hexadecimal digits, in either case of the letters. *)
Theorem HexColor_passes_iff (u : Vee.Unicode) field value (v : Vee.Validator) :
  (fst (Vee.HexColor u field value v) = true <->
   exists digits,
     Vee.runes u value = 35%Z :: digits /\
     (length digits = 6 \/ length digits = 3) /\
     Forall (fun c => Regexp.in_class Vee.hex_digit c = true) digits) /\
  (forall c,
     Regexp.in_class Vee.hex_digit c = true <->
     (48 <= c <= 57 \/ 65 <= c <= 70 \/ 97 <= c <= 102)%Z).
Proof.
  split.
  - unfold Vee.HexColor.
    rewrite Vee_pattern_check_passes, Vee_MatchString_spec.
    unfold Vee.hexColorRegex, Regexp.Chr. rewrite RegexpFacts.Lang_cat.
    split.
    + intros (s1 & s2 & Hs & H1 & H2).
      apply RegexpFacts.Lang_class in H1. destruct H1 as (c & -> & Hc).
      apply in_class_one in Hc. subst c. exists s2.
      split; [exact Hs |].
      apply Lang_alt_iff in H2.
      destruct H2 as [H | H];
        apply RegexpFacts.Lang_times_class in H; destruct H as [Hlen HF];
        split; auto.
    + intros (digits & Hs & [Hlen | Hlen] & HF);
        exists [35%Z], digits; (split; [exact Hs |]);
        (split; [apply RegexpFacts.Lang_class; exists 35%Z;
                 split; [reflexivity | now apply in_class_one] |]).
      * apply Regexp.LangAltL. now apply RegexpFacts.Lang_times_class.
      * apply Regexp.LangAltR. now apply RegexpFacts.Lang_times_class.
  - intros c. class_bounds.
Qed.

(** X25: AlphaDash passes exactly when the value has at least one rune
    and every rune is an ASCII letter, a digit, a dash or an underscore.
    A value with no rune fails AlphaDash, though it passes
    AlphaNumeric. *)
Theorem AlphaDash_passes_iff (u : Vee.Unicode) field value (v : Vee.Validator) :
  (fst (Vee.AlphaDash u field value v) = true <->
   Vee.runes u value <> [] /\
   Forall (fun c => Regexp.in_class Vee.alpha_dash c = true)
     (Vee.runes u value)) /\
  (forall c,
     Regexp.in_class Vee.alpha_dash c = true <->
     (97 <= c <= 122 \/ 65 <= c <= 90 \/ 48 <= c <= 57 \/ c = 45 \/ c = 95)%Z)
  /\
  (Vee.runes u value = [] ->
   fst (Vee.AlphaDash u field value v) = false /\
   fst (Vee.AlphaNumeric u field value v) = true).
Proof.
  assert (Hiff : fst (Vee.AlphaDash u field value v) = true <->
    Vee.runes u value <> [] /\
    Forall (fun c => Regexp.in_class Vee.alpha_dash c = true)
      (Vee.runes u value)).
  { unfold Vee.AlphaDash.
    rewrite Vee_pattern_check_passes, Vee_MatchString_spec.
    apply RegexpFacts.Lang_plus_class. }
  split; [exact Hiff |]. split; [intros c; class_bounds |].
  intros Hnil. split.
  - destruct (fst (Vee.AlphaDash u field value v)); [| reflexivity].
    destruct (proj1 Hiff eq_refl) as [Hne _]. contradiction.
  - unfold Vee.AlphaNumeric. now rewrite Hnil.
Qed.

(** X26: Email passes exactly when the value is a local part, "@", a
    domain, "." and a top-level part, where the local part is one or more
    of a-z, 0-9, ".", "_", "%", "+", "-", the domain one or more of a-z,
    0-9, ".", "-", and the top-level part two to four of a-z.  So a value
    with an upper-case ASCII letter anywhere never passes. *)
Theorem Email_passes_iff (u : Vee.Unicode) field value (v : Vee.Validator) :
  (fst (Vee.Email u field value v) = true <->
   exists local domain tld,
     Vee.runes u value = local ++ [64%Z] ++ domain ++ [46%Z] ++ tld /\
     local <> [] /\
     Forall (fun c => Regexp.in_class Vee.email_local c = true) local /\
     domain <> [] /\
     Forall (fun c => Regexp.in_class Vee.email_domain c = true) domain /\
     2 <= length tld <= 4 /\
     Forall (fun c => (97 <= c <= 122)%Z) tld) /\
  (forall c,
     In c (Vee.runes u value) -> (65 <= c <= 90)%Z ->
     fst (Vee.Email u field value v) = false).
Proof.
  assert (Htld : forall s,
    Forall (fun c => Regexp.in_class Vee.email_tld c = true) s <->
    Forall (fun c => (97 <= c <= 122)%Z) s).
  { intros s. split; intros H; eapply Forall_impl; try exact H; cbn;
      intros c; class_bounds. }
  assert (Hiff : fst (Vee.Email u field value v) = true <->
    exists local domain tld,
      Vee.runes u value = local ++ [64%Z] ++ domain ++ [46%Z] ++ tld /\
      local <> [] /\
      Forall (fun c => Regexp.in_class Vee.email_local c = true) local /\
      domain <> [] /\
      Forall (fun c => Regexp.in_class Vee.email_domain c = true) domain /\
      2 <= length tld <= 4 /\
      Forall (fun c => (97 <= c <= 122)%Z) tld).
  { unfold Vee.Email.
    rewrite Vee_pattern_check_passes, Vee_MatchString_spec.
    unfold Vee.emailRegex, Regexp.Chr. split.
    - intros H.
      apply RegexpFacts.Lang_cat in H. destruct H as (l & s1 & Hs & Hl & H).
      apply RegexpFacts.Lang_cat in H. destruct H as (a & s2 & -> & Ha & H).
      apply RegexpFacts.Lang_cat in H. destruct H as (d & s3 & -> & Hd & H).
      apply RegexpFacts.Lang_cat in H. destruct H as (p & t & -> & Hp & Ht).
      apply RegexpFacts.Lang_class in Ha. destruct Ha as (ca & -> & Hca).
      apply in_class_one in Hca. subst ca.
      apply RegexpFacts.Lang_class in Hp. destruct Hp as (cp & -> & Hcp).
      apply in_class_one in Hcp. subst cp.
      apply RegexpFacts.Lang_plus_class in Hl, Hd.
      apply (RegexpFacts.Lang_from_to_class _ 2 4) in Ht; [| lia].
      destruct Hl as [Hl1 Hl2], Hd as [Hd1 Hd2], Ht as [Ht1 Ht2].
      exists l, d, t. rewrite Htld in Ht2. repeat split; try assumption; lia.
    - intros (l & d & t & Hs & Hl1 & Hl2 & Hd1 & Hd2 & Ht1 & Ht2).
      rewrite Hs.
      apply Regexp.LangCat; [now apply RegexpFacts.Lang_plus_class |].
      apply Regexp.LangCat;
        [constructor; now apply in_class_one |].
      apply Regexp.LangCat; [now apply RegexpFacts.Lang_plus_class |].
      apply Regexp.LangCat;
        [constructor; now apply in_class_one |].
      apply (RegexpFacts.Lang_from_to_class _ 2 4); [lia |].
      split; [exact Ht1 | now apply Htld]. }
  split; [exact Hiff |].
  intros c Hin Hupper.
  destruct (fst (Vee.Email u field value v)); [| reflexivity].
  destruct (proj1 Hiff eq_refl)
    as (l & d & t & Hs & _ & Hl & _ & Hd & _ & Ht).
  rewrite Hs in Hin. rewrite Forall_forall in Hl, Hd, Ht.
  apply in_app_or in Hin. destruct Hin as [Hin | Hin];
    [specialize (Hl c Hin); revert Hl; class_bounds |].
  apply in_app_or in Hin. destruct Hin as [Hin | Hin];
    [destruct Hin as [<- | []]; lia |].
  apply in_app_or in Hin. destruct Hin as [Hin | Hin];
    [specialize (Hd c Hin); revert Hd; class_bounds |].
  apply in_app_or in Hin. destruct Hin as [Hin | Hin];
    [destruct Hin as [<- | []]; lia | specialize (Ht c Hin); lia].
Qed.

(** ** Substrings *)

Lemma substring_prefix_split (s t : string) (n : nat) :
  substring 0 n s = t -> String.length t = n ->
  exists rest, s = (t ++ rest)%string.
Proof.
  revert n t. induction s as [| c s IH]; intros n t Hsub Hlen.
  - destruct n; cbn in Hsub; subst t; now exists "".
  - destruct n as [| n]; cbn in Hsub.
    + subst t. now exists (String c s).
    + destruct t as [| c' t]; [discriminate |].
      injection Hsub as -> Hsub. cbn in Hlen.
      destruct (IH n t Hsub ltac:(lia)) as [rest ->]. now exists rest.
Qed.

Lemma substring_middle_split (s t : string) (m n : nat) :
  substring m n s = t -> String.length t = n ->
  exists front rest, s = (front ++ t ++ rest)%string.
Proof.
  revert m. induction s as [| c s IH]; intros m Hsub Hlen.
  - destruct m, n; cbn in Hsub; subst t; now exists "", "".
  - destruct m as [| m].
    + destruct (substring_prefix_split _ _ _ Hsub Hlen) as [rest ->].
      now exists "", rest.
    + cbn in Hsub. destruct (IH m Hsub Hlen) as (front & rest & ->).
      now exists (String c front), rest.
Qed.

Lemma substring_middle (front t rest : string) :
  substring (String.length front) (String.length t)
    (front ++ t ++ rest)%string = t.
Proof.
  induction front as [| c front IH]; cbn; [apply substring_head | exact IH].
Qed.

Lemma Vee_Contains_string_spec (s substr : string) :
  Vee.Contains_string s substr = true <->
  exists front rest, s = (front ++ substr ++ rest)%string.
Proof.
  unfold Vee.Contains_string.
  destruct (String.index 0 substr s) as [m |] eqn:Hidx.
  - split; [intros _ | reflexivity].
    apply index_correct1 in Hidx.
    now apply (substring_middle_split _ _ _ _ Hidx).
  - split; [discriminate |]. intros (front & rest & ->). exfalso.
    destruct substr as [| c substr].
    + apply index_correct4 in Hidx. lia.
    + apply (index_correct3 0 (String.length front) _ _ Hidx);
        [discriminate | lia | apply substring_middle].
Qed.

(** X27: Contains passes exactly when the substring occurs somewhere in
    the value; the empty substring always does; and a value that passes
    StartsWith or EndsWith for a part passes Contains for it. *)
Theorem Contains_passes_iff field (value part : string) (v : Vee.Validator) :
  (fst (Vee.Contains field value part v) = true <->
   exists front rest, value = (front ++ part ++ rest)%string) /\
  fst (Vee.Contains field value "" v) = true /\
  (fst (Vee.StartsWith field value part v) = true \/
   fst (Vee.EndsWith field value part v) = true ->
   fst (Vee.Contains field value part v) = true).
Proof.
  assert (Hc : forall p,
    fst (Vee.Contains field value p v) = true <->
    exists front rest, value = (front ++ p ++ rest)%string).
  { intros p. unfold Vee.Contains. rewrite <- Vee_Contains_string_spec.
    destruct (Vee.Contains_string value p); cbn; split; congruence. }
  split; [apply Hc |]. split.
  - apply Hc. now exists "", value.
  - intros [H | H]; apply Hc.
    + unfold Vee.StartsWith in H.
      destruct (Vee.HasPrefix value part) eqn:Hp; [| discriminate H].
      apply Vee_HasPrefix_spec in Hp. destruct Hp as [rest ->].
      now exists "", rest.
    + unfold Vee.EndsWith in H.
      destruct (Vee.HasSuffix value part) eqn:Hp; [| discriminate H].
      apply Vee_HasSuffix_spec in Hp. destruct Hp as [front ->].
      exists front, "". f_equal. clear. induction part; cbn; congruence.
Qed.
